(** * ksym_mod.c: the module symbol table of klogd

    A shallow embedding of [src/ksym_mod.c] (sysklogd): the table of
    loadable-module symbols built by [InitMsyms] through [query_module], and
    the address lookup [LookupModuleSymbol].

    Conventions of the embedding.
    - The C data model is ILP32 ([int], [long] and pointers are 32 bits wide,
      the i386 the file was written for; its [(int)] cast of a module address
      is the identity only there).  An [unsigned long] is a [Z] in
      [0, 2^32); every arithmetic operation of the source is followed by the
      reduction it performs ([to_ulong]).
    - The file is read as it compiles against the headers of a kernel that
      has [query_module], 2.1.18 or later ([LINUX_VERSION_CODE >= 0x20112]):
      [struct Module] has the two members [module] and [module_info], and
      the lookup takes the branches that read [module_info.addr].
    - A C array together with its element count is a list: [sym_array] with
      [num_syms], and [sym_array_modules] with [num_modules] (of the [rtn]
      entries the source allocates, the list keeps the [num_modules]
      initialised ones).  A symbol array that is lost while its entries are
      still counted is no list: [sym_block] and [damage] follow it.
    - [query_module], [realloc], [malloc] and [strdup] are the environment:
      a [kernel] record answers the queries and tells what allocated memory
      holds where the source reads it without having written it, a [heap]
      oracle decides which allocation fails. *)

From Stdlib Require Import ZArith List String Bool Lia Sorted Permutation.
Import ListNotations.
Local Open Scope Z_scope.

(** ** Machine integers *)

Definition ULONG_BITS : Z := 32.
Definition ULONG_MOD : Z := 2 ^ ULONG_BITS.
Definition INT_MAX : Z := 2 ^ 31 - 1.

(** Conversion to [unsigned long]: reduction modulo [2^32]. *)
Definition to_ulong (x : Z) : Z := x mod ULONG_MOD.

(** Conversion to [int]: the value in [-2^31, 2^31) congruent to [x]. *)
Definition to_int (x : Z) : Z :=
  let r := x mod ULONG_MOD in
  if r <=? INT_MAX then r else r - ULONG_MOD.

(** ** Data *)

(** [struct sym_table]: one exported symbol. *)
Record sym_table : Type := mk_sym_table {
  value : Z;         (* unsigned long value *)
  name : string      (* char *name, holding "<module>:<symbol>" *)
}.

(** Modelled from the spec: [struct module] and [struct module_info] are
    declared in module.h, which is not among the sources.  This is the
    record that [QM_INFO] writes; the spec's [GetModuleInfo] gives it a base
    address and a size counted in pages.  [AddModule] has it written into
    the member [module] of the entry (l.412), where the lookup reads the
    size, [mp->module.size]. *)
Record module_info : Type := mk_module_info {
  addr : Z;          (* unsigned long addr *)
  msize : Z          (* unsigned long size, in pages *)
}.

(** [struct Module]: [sym_array] with [num_syms], [name], and the two
    members that describe the module.  [module] is the one [QM_INFO] fills
    (l.412).  Of the other, [module_info], the lookup reads the field [addr]
    (l.616-618, 642, 658); no line of the file assigns to it, so it holds
    what the memory of the table held when [malloc] returned it (l.260). *)
Record Module_ : Type := mk_Module {
  sym_array : list sym_table;
  module_name : string;       (* mp->name *)
  module : module_info;       (* mp->module *)
  module_info_addr : Z        (* mp->module_info.addr *)
}.

Definition num_syms (mp : Module_) : Z := Z.of_nat (List.length (sym_array mp)).

(** The variables static to the file. *)
Record globals : Type := mk_globals {
  sym_array_modules : list Module_;
  have_modules : bool
}.

Definition num_modules (g : globals) : Z :=
  Z.of_nat (List.length (sym_array_modules g)).

(** Modelled from the spec: [struct symbol] is declared in ksyms.h, which is
    not among the sources.  The lookup assigns its [size] and [offset]
    fields; the spec's ResolutionResult gives both as integers, so a field
    holds the value of the [unsigned long] expression assigned to it. *)
Record symbol : Type := mk_symbol {
  size : Z;
  offset : Z
}.

Definition set_size (sym : symbol) (v : Z) : symbol :=
  {| size := v; offset := offset sym |}.
Definition set_offset (sym : symbol) (v : Z) : symbol :=
  {| size := size sym; offset := v |}.

(** ** LookupModuleSymbol *)

(** The end of a module's extent, [module_info.addr + module.size * 4096],
    as the source computes it (l.617-618). *)
Definition module_end (mp : Module_) : Z :=
  to_ulong (module_info_addr mp + to_ulong (msize (module mp) * 4096)).

(** The inner loop (l.587-599): [last] trails [nsym] by one entry; the first
    entry whose value exceeds [value] ends the search. *)
Fixpoint scan_syms (value_ : Z) (sym : symbol) (last : sym_table)
    (rest : list sym_table) : option (string * symbol) :=
  match rest with
  | [] => None
  | cur :: rest' =>
      if value cur >? value_ then
        let sym := set_offset sym (to_ulong (value_ - value last)) in
        let sym := set_size sym (to_ulong (value cur - value last)) in
        Some (name last, sym)
      else scan_syms value_ sym cur rest'
  end.

(** The body of the loop over the modules (l.581-661) for one module:
    [Some] when the function returns from inside the body. *)
Definition lookup_in_module (value_ : Z) (sym : symbol) (mp : Module_)
    : option (string * symbol) :=
  let scanned :=
    match sym_array mp with
    | [] => None
    | s0 :: rest => scan_syms value_ sym s0 rest
    end in
  match scanned with
  | Some r => Some r
  | None =>
      if (value_ >=? module_info_addr mp) && (value_ <=? module_end mp) then
        match sym_array mp with
        | s0 :: rest =>
            (* mp->num_syms > 0 *)
            let last := List.last rest s0 in
            let sym := set_size sym
              (to_ulong (to_ulong (to_ulong (to_int (module_info_addr mp))
                                   + to_ulong (msize (module mp) * 4096))
                         - value_)) in
            let sym := set_offset sym (to_ulong (value_ - value last)) in
            Some (name last, sym)
        | [] =>
            let sym := set_size sym (to_ulong (msize (module mp) * 4096)) in
            let sym := set_offset sym (to_ulong (value_ - module_info_addr mp)) in
            Some (module_name mp, sym)
        end
      else None
  end.

(** The loop over the modules (l.579-662) and the final [return 0]. *)
Fixpoint lookup_modules (value_ : Z) (sym : symbol) (mods : list Module_)
    : option string * symbol :=
  match mods with
  | [] => (None, sym)
  | mp :: mods' =>
      match lookup_in_module value_ sym mp with
      | Some (n, sym') => (Some n, sym')
      | None => lookup_modules value_ sym mods'
      end
  end.

(** [LookupModuleSymbol(value, sym)]: the returned name ([None] for the null
    pointer) and the contents of [*sym] on return. *)
Definition LookupModuleSymbol (value_ : Z) (sym : symbol) (g : globals)
    : option string * symbol :=
  let sym := set_size sym 0 in
  let sym := set_offset sym 0 in
  if num_modules g =? 0 then (None, sym)
  else lookup_modules value_ sym (sym_array_modules g).

(** ** The environment: query_module and the allocator *)

(** What a call of [query_module] with a result buffer comes back with. *)
Inductive qm_result (A : Type) : Type :=
| QmOk (rtn : A)     (* result >= 0: the buffer holds the answer *)
| QmNoSpace          (* result < 0 and errno == ENOSPC *)
| QmError.           (* result < 0 and any other errno *)
Arguments QmOk {A} rtn.
Arguments QmNoSpace {A}.
Arguments QmError {A}.

(** The three queries the file makes.  A buffer query is given the buffer
    size; [QM_MODULES] answers with the module names in buffer order,
    [QM_SYMBOLS] with the [struct module_symbol] entries, each a value and the
    name its offset points at.

    [stale_addr i] is what the block that [malloc] hands out for the module
    table (l.260) holds, when it is handed out, in the field
    [module_info.addr] of its entry [i]: memory the program has not written
    to, zero on pages fresh from the kernel and anything at all in a block
    that was used before. *)
Record kernel : Type := mk_kernel {
  qm_modules : Z -> qm_result (list string);
  qm_info : string -> option module_info;
  qm_symbols : string -> Z -> qm_result (list (Z * string));
  stale_addr : nat -> Z
}.

(** The allocator: the head of the list tells whether the next call of
    [realloc], [malloc] or [strdup] succeeds; past the end of the list every
    call succeeds. *)
Definition heap : Type := list bool.

Definition alloc (h : heap) : bool * heap :=
  match h with
  | [] => (true, [])
  | ok :: h' => (ok, h')
  end.

(** A run returns, or returns leaving a table that is no table of the
    model, or leaves defined behaviour.
    - [Astray b h]: the function returns [b], the allocator left as [h], and
      some module of the table counts entries that its array does not hold:
      [sym_array] is null, or is a block obtained after the array was lost,
      whose first entries were never written.
    - [Undefined]: a doubled [int] past [INT_MAX]; a null array handed to
      [qsort] with two or more entries counted; a name written past the end
      of its block. *)
Inductive outcome (A : Type) : Type :=
| Done (a : A)
| Astray (b : bool) (h : heap)
| Undefined.
Arguments Done {A} a.
Arguments Astray {A} b h.
Arguments Undefined {A}.

(** ** The grow-and-retry loop *)

(** The do-while loops of [InitMsyms] (l.216-238) and of [AddModule]
    (l.433-455) are the same code on two buffers: double the size, grow the
    buffer, query; leave on an allocation failure or on an error other than
    [ENOSPC] (the enclosing function then returns 0: [None] here), go round
    again on [ENOSPC].  [fuel] bounds the recursion; [LOOP_FUEL] rounds are
    never used up ([grow_query_fuel]). *)
Fixpoint grow_query {A : Type} (fuel : nat) (query : Z -> qm_result A)
    (bufsize : Z) (h : heap) : outcome (option A * heap) :=
  match fuel with
  | O => Undefined
  | S fuel' =>
      let bufsize := bufsize + bufsize in
      if bufsize >? INT_MAX then Undefined else
      let (ok, h) := alloc h in
      if negb ok then Done (None, h) else
      match query bufsize with
      | QmOk rtn => Done (Some rtn, h)
      | QmError => Done (None, h)
      | QmNoSpace => grow_query fuel' query bufsize h
      end
  end.

Definition LOOP_FUEL : nat := 32.

(** ** symsort and qsort *)

Definition symsort (sym1 sym2 : sym_table) : Z :=
  if value sym1 <? value sym2 then -1
  else if value sym1 =? value sym2 then 0
  else 1.

(** [qsort] is the C library's: it orders the array by the comparison
    function and promises nothing on the order of entries that compare
    equal.  The model is the insertion sort driven by the comparison
    function. *)
Fixpoint qsort_insert {A : Type} (compar : A -> A -> Z) (x : A) (l : list A)
    : list A :=
  match l with
  | [] => [x]
  | y :: l' =>
      if compar x y <=? 0 then x :: l else y :: qsort_insert compar x l'
  end.

Fixpoint qsort {A : Type} (compar : A -> A -> Z) (l : list A) : list A :=
  match l with
  | [] => []
  | x :: l' => qsort_insert compar x (qsort compar l')
  end.

(** ** The name of a table entry *)

(** The block [AddSymbol] allocates for a name: its size in bytes, and the
    C string it holds, the characters before the terminator. *)
Record buffer : Type := mk_buffer {
  bytes : Z;
  text : string
}.

(** [memset(p, '\0', n)] on a block of [n] bytes: the empty string. *)
Definition memset_zero (n : Z) : buffer := {| bytes := n; text := "" |}.

(** [strcpy] and [strcat] are the C library's: they write the characters
    and a terminator, [None] when that passes the end of the block. *)
Definition strcpy (b : buffer) (s : string) : option buffer :=
  if Z.of_nat (String.length s) + 1 <=? bytes b
  then Some {| bytes := bytes b; text := s |}
  else None.

Definition strcat (b : buffer) (s : string) : option buffer :=
  if Z.of_nat (String.length (text b)) + Z.of_nat (String.length s) + 1
     <=? bytes b
  then Some {| bytes := bytes b; text := (text b ++ s)%string |}
  else None.

(** ** AddSymbol, AddModule, FreeModules, InitMsyms *)

(** [mp->sym_array] with [mp->num_syms] while [AddModule] fills them.
    - [Held entries]: the array holds the [num_syms] entries written to it.
    - [Null counted]: [sym_array] is null and [num_syms] is [counted],
      positive; a [realloc] of the array failed (l.515-518).
    - [Junk counted]: [sym_array] is a block obtained by a later [realloc]
      of the null pointer; [num_syms] is [counted], and the first entries of
      the block were never written. *)
Inductive sym_block : Type :=
| Held (entries : list sym_table)
| Null (counted : nat)
| Junk (counted : nat).

(** [AddSymbol(mp, address, symbol)]: the returned boolean and the array of
    [*mp]; [mname] is [mp->name].  The lengths of the two names are taken to
    fit an [int]. *)
Definition AddSymbol (mname : string) (blk : sym_block) (address : Z)
    (symbol_ : string) (h : heap) : outcome (bool * sym_block * heap) :=
  let (ok, h) := alloc h in             (* realloc(mp->sym_array, ...) *)
  if negb ok then
    Done (false,
          match blk with
          | Held [] => Held []
          | Held (s :: entries) => Null (List.length (s :: entries))
          | Null counted => Null counted
          | Junk counted => Null counted
          end,
          h)
  else
  let tmp := Z.of_nat (String.length symbol_) in
  let tmp := tmp + (Z.of_nat (String.length mname) + 1) in
  let (ok, h) := alloc h in             (* malloc(tmp + 1) *)
  if negb ok then
    Done (false,
          match blk with
          | Held entries => Held entries
          | Null counted => Junk counted
          | Junk counted => Junk counted
          end,
          h)
  else
  match strcpy (memset_zero (tmp + 1)) mname with
  | None => Undefined
  | Some b =>
  match strcat b ":" with
  | None => Undefined
  | Some b =>
  match strcat b symbol_ with
  | None => Undefined
  | Some b =>
      let entry := {| value := address; name := text b |} in
      Done (true,
            match blk with
            | Held entries => Held (entries ++ [entry])
            | Null counted => Junk (S counted)
            | Junk counted => Junk (S counted)
            end,
            h)
  end end end.

(** The loop of [AddModule] over the answer of [QM_SYMBOLS] (l.466-474);
    every round addresses the entry counted last,
    [sym_array_modules[num_modules - 1]], and drops what [AddSymbol]
    returns. *)
Fixpoint add_symbols (mname : string) (blk : sym_block)
    (symbuf : list (Z * string)) (h : heap) : outcome (sym_block * heap) :=
  match symbuf with
  | [] => Done (blk, h)
  | (v, n) :: symbuf' =>
      match AddSymbol mname blk v n h with
      | Undefined => Undefined
      | Astray b h' => Astray b h'
      | Done (_, blk', h') => add_symbols mname blk' symbuf' h'
      end
  end.

(** What became of the symbol arrays that the table cannot hold:
    [lost_array null_pair] when some module counts entries that its array
    does not hold, [null_pair] telling whether one of these arrays is null
    with two or more entries counted. *)
Inductive damage : Type :=
| intact
| lost_array (null_pair : bool).

Definition join_damage (d1 d2 : damage) : damage :=
  match d1, d2 with
  | intact, d => d
  | d, intact => d
  | lost_array p1, lost_array p2 => lost_array (p1 || p2)
  end.

(** [AddModule(symbol)]: the returned boolean, the static variables, and
    what became of the symbol array of the module.  The entry of a module
    whose array is lost keeps its place in the table, without symbols. *)
Definition AddModule (k : kernel) (symbol_ : string) (g : globals) (h : heap)
    : outcome (bool * globals * damage * heap) :=
  if have_modules g then Done (true, g, intact, h) else
  match qm_info k symbol_ with
  | None => Done (false, g, intact, h)
  | Some info =>
      let (ok, h) := alloc h in         (* strdup(symbol) *)
      if negb ok then Done (false, g, intact, h) else
      let mp := {| sym_array := []; module_name := symbol_;
                   module := info;
                   module_info_addr :=
                     stale_addr k (List.length (sym_array_modules g)) |} in
      let counted :=                    (* ++num_modules *)
        {| sym_array_modules := sym_array_modules g ++ [mp];
           have_modules := have_modules g |} in
      match grow_query LOOP_FUEL (qm_symbols k symbol_) 128 h with
      | Undefined => Undefined
      | Astray b h => Astray b h
      | Done (None, h) => Done (false, counted, intact, h)
      | Done (Some symbuf, h) =>
          (* rtn < 0 never holds, rtn being a size_t (l.457-462) *)
          match add_symbols symbol_ (Held []) symbuf h with
          | Undefined => Undefined
          | Astray b h => Astray b h
          | Done (Held entries, h) =>
              let mp' := {| sym_array := entries;
                            module_name := module_name mp;
                            module := module mp;
                            module_info_addr := module_info_addr mp |} in
              Done (true,
                    {| sym_array_modules := sym_array_modules g ++ [mp'];
                       have_modules := have_modules g |},
                    intact, h)
          | Done (Null n, h) =>
              Done (true, counted, lost_array (2 <=? Z.of_nat n), h)
          | Done (Junk _, h) =>
              Done (true, counted, lost_array false, h)
          end
      end
  end.

Definition FreeModules (g : globals) : globals :=
  {| sym_array_modules := []; have_modules := false |}.

(** The loop of [InitMsyms] over the module names (l.275-287): the names are
    taken in buffer order; the first [AddModule] that returns 0 ends it. *)
Fixpoint add_modules (k : kernel) (names : list string) (g : globals)
    (d : damage) (h : heap) : outcome (bool * globals * damage * heap) :=
  match names with
  | [] => Done (true, g, d, h)
  | n :: names' =>
      match AddModule k n g h with
      | Undefined => Undefined
      | Astray b h' => Astray b h'
      | Done (false, g', d', h') => Done (false, g', join_damage d d', h')
      | Done (true, g', d', h') =>
          add_modules k names' g' (join_damage d d') h'
      end
  end.

(** One round of the sorting loop (l.292-300). *)
Definition sort_module (mp : Module_) : Module_ :=
  if num_syms mp <? 2 then mp
  else {| sym_array := qsort symsort (sym_array mp);
          module_name := module_name mp;
          module := module mp;
          module_info_addr := module_info_addr mp |}.

(** [InitMsyms()]: the returned boolean, the static variables and the
    allocator on return.  The sorting loop hands [qsort] every array with
    two or more entries counted (l.294-299), a null one too. *)
Definition InitMsyms (k : kernel) (g : globals) (h : heap)
    : outcome (bool * globals * heap) :=
  let g := FreeModules g in
  match grow_query LOOP_FUEL (qm_modules k) 32 h with
  | Undefined => Undefined
  | Astray b h => Astray b h
  | Done (None, h) => Done (false, g, h)
  | Done (Some names, h) =>
      let rtn := Z.of_nat (List.length names) in
      if rtn <=? 0 then Done (false, g, h) else
      let (ok, h) := alloc h in         (* mod_table *)
      if negb ok then Done (false, g, h) else
      let (ok, h) := alloc h in         (* sym_array_modules *)
      if negb ok then Done (false, g, h) else
      match add_modules k names g intact h with
      | Undefined => Undefined
      | Astray b h => Astray b h
      | Done (false, g, intact, h) => Done (false, g, h)
      | Done (false, _, lost_array _, h) => Astray false h
      | Done (true, g, intact, h) =>
          Done (true,
                {| sym_array_modules :=
                     List.map sort_module (sym_array_modules g);
                   have_modules := true |},
                h)
      | Done (true, _, lost_array true, _) => Undefined
      | Done (true, _, lost_array false, h) => Astray true h
      end
  end.

(** ** Predicates of the statements *)

(** The table order of one module: [symbols[i].address <=
    symbols[i+1].address] for every valid [i]. *)
Definition sorted_syms (l : list sym_table) : Prop :=
  forall (i : nat) (s t : sym_table),
    nth_error l i = Some s -> nth_error l (S i) = Some t ->
    value s <= value t.

Definition value_le (s t : sym_table) : Prop := value s <= value t.

(** The extent that the lookup reads for a module,
    [module_info.addr, module_info.addr + module.size * 4096), lies in the
    address space, its end included: no step of the source's arithmetic on
    it wraps around. *)
Definition extent_fits (mp : Module_) : Prop :=
  0 <= module_info_addr mp /\ 0 <= msize (module mp) /\
  module_info_addr mp + msize (module mp) * 4096 < ULONG_MOD.

(** The loop body passes a module by: the scan finds no entry above the
    address past the first, and the address is outside
    [module_info.addr, module_info.addr + module.size * 4096], both ends
    included. *)
Definition passed_by (value_ : Z) (mp : Module_) : Prop :=
  Forall (fun s => value s <= value_) (List.tl (sym_array mp)) /\
  ~ (module_info_addr mp <= value_ <= module_end mp).

(** The module names the module-list loop of [InitMsyms] obtains (none when
    it leaves without an answer). *)
Definition listed (k : kernel) (h : heap) : list string :=
  match grow_query LOOP_FUEL (qm_modules k) 32 h with
  | Done (Some names, _) => names
  | _ => []
  end.

(** The kernel described the module of this entry and answered a query for
    its symbols. *)
Definition described (k : kernel) (mp : Module_) : Prop :=
  qm_info k (module_name mp) = Some (module mp) /\
  exists sz symbuf, qm_symbols k (module_name mp) sz = QmOk symbuf.

Definition mk_sym (v : Z) (n : string) : sym_table :=
  {| value := v; name := n |}.

Definition no_modules : globals :=
  {| sym_array_modules := []; have_modules := false |}.

(** ** Sample kernels *)

(** A kernel that lists [names] once the buffer has 128 bytes, describes the
    modules of [loaded], and hands out a module's symbols once the buffer has
    512 bytes.  A listed name that is not in [loaded] is a module unloaded
    between two queries.  The memory of the module table is fresh from the
    kernel: it holds zeros. *)
Fixpoint find_module (n : string)
    (loaded : list (string * (module_info * list (Z * string))))
    : option (module_info * list (Z * string)) :=
  match loaded with
  | [] => None
  | (m, d) :: loaded' =>
      if String.eqb n m then Some d else find_module n loaded'
  end.

Definition sample_kernel (names : list string)
    (loaded : list (string * (module_info * list (Z * string)))) : kernel :=
  {| qm_modules := fun sz => if sz <? 128 then QmNoSpace else QmOk names;
     qm_info := fun n => option_map fst (find_module n loaded);
     qm_symbols := fun n sz =>
       match find_module n loaded with
       | None => QmError
       | Some (_, syms) => if sz <? 512 then QmNoSpace else QmOk syms
       end;
     stale_addr := fun _ => 0 |}.

(** The same kernel, the memory of the module table holding [st]. *)
Definition with_memory (st : nat -> Z) (k : kernel) : kernel :=
  {| qm_modules := qm_modules k;
     qm_info := qm_info k;
     qm_symbols := qm_symbols k;
     stale_addr := st |}.

(** The table [InitMsyms] leaves when no allocation fails. *)
Definition table_of (k : kernel) : globals :=
  match InitMsyms k no_modules [] with
  | Done (_, g, _) => g
  | _ => no_modules
  end.

(** The module of the spec's example: one page at 0x1000, [init] at 0x1000
    and [probe] at 0x1200 (enumerated in the other order). *)
Definition usb_core : string * (module_info * list (Z * string)) :=
  ("usb_core"%string,
   ({| addr := 0x1000; msize := 1 |},
    [(0x1200, "probe"%string); (0x1000, "init"%string)])).

(** A module without symbols, one page at 0x2000. *)
Definition bare : string * (module_info * list (Z * string)) :=
  ("bare"%string, ({| addr := 0x2000; msize := 1 |}, [])).

(** A module of one page at 0x5000, clear of the others. *)
Definition ext3 : string * (module_info * list (Z * string)) :=
  ("ext3"%string,
   ({| addr := 0x5000; msize := 1 |},
    [(0x5000, "read"%string); (0x5200, "write"%string)])).

Definition usb_kernel : kernel := sample_kernel ["usb_core"%string] [usb_core].
Definition usb_table : globals := table_of usb_kernel.

Definition bare_kernel : kernel := sample_kernel ["bare"%string] [bare].
Definition bare_table : globals := table_of bare_kernel.

Definition two_kernel : kernel :=
  sample_kernel ["ext3"; "usb_core"; "bare"]%string [ext3; usb_core; bare].
Definition two_table : globals := table_of two_kernel.

(** A module without symbols, one page at 0x9000. *)
Definition far : string * (module_info * list (Z * string)) :=
  ("far"%string, ({| addr := 0x9000; msize := 1 |}, [])).

(** Three modules clear of each other. *)
Definition plain_kernel : kernel :=
  sample_kernel ["bare"; "usb_core"; "far"]%string [bare; usb_core; far].
Definition plain_table : globals := table_of plain_kernel.

(** The entries of the sample tables. *)
Definition usb_init : sym_table := mk_sym 0x1000 "usb_core:init".
Definition usb_probe : sym_table := mk_sym 0x1200 "usb_core:probe".
Definition usb_entry : Module_ :=
  {| sym_array := [usb_init; usb_probe]; module_name := "usb_core";
     module := {| addr := 0x1000; msize := 1 |};
     module_info_addr := 0 |}.
Definition entry_of (m : string * (module_info * list (Z * string)))
    : Module_ :=
  {| sym_array := []; module_name := fst m; module := fst (snd m);
     module_info_addr := 0 |}.

(** An entry as the lookup would read it if [module_info.addr] held the
    base address that [QM_INFO] reported, and a table of such entries. *)
Definition placed (mp : Module_) : Module_ :=
  {| sym_array := sym_array mp; module_name := module_name mp;
     module := module mp; module_info_addr := addr (module mp) |}.

Definition placed_table (g : globals) : globals :=
  {| sym_array_modules := List.map placed (sym_array_modules g);
     have_modules := have_modules g |}.

(** [usb_core] is listed together with a module that is gone by the time it
    is described. *)
Definition gone_kernel : kernel :=
  sample_kernel ["usb_core"; "gone"]%string [usb_core].

Definition gone_table : globals := table_of gone_kernel.

Definition empty_kernel : kernel := sample_kernel [] [].

(** A kernel whose module list needs one byte more than the largest buffer
    the doubling reaches, 2^30 bytes. *)
Definition large_kernel : kernel :=
  {| qm_modules := fun sz =>
       if sz <=? 2 ^ 30 then QmNoSpace else QmOk ["usb_core"%string];
     qm_info := qm_info usb_kernel;
     qm_symbols := qm_symbols usb_kernel;
     stale_addr := stale_addr usb_kernel |}.

(** What the caller's [struct symbol] held before a call. *)
Definition stale : symbol := {| size := 7; offset := 9 |}.

(** ** Further predicates and samples *)

(** The table entry [AddSymbol] writes for a [struct module_symbol] of the
    module named [mname] (l.529-532): the address, and the name behind the
    module name and a colon. *)
Definition qualified (mname : string) (p : Z * string) : sym_table :=
  mk_sym (fst p) (mname ++ ":" ++ snd p)%string.

(** [kept] is [l] with some entries left out, the order kept. *)
Inductive subseq {A : Type} : list A -> list A -> Prop :=
| subseq_nil : subseq [] []
| subseq_skip (x : A) (kept l : list A) :
    subseq kept l -> subseq kept (x :: l)
| subseq_take (x : A) (kept l : list A) :
    subseq kept l -> subseq (x :: kept) (x :: l).

(** The entries of [mp] are the qualified entries [kept] out of an answer
    of the kernel to a query for the symbols of its module; [complete] says
    that no allocation failed before or while they were attached. *)
Definition attached (k : kernel) (complete : Prop) (mp : Module_) : Prop :=
  exists (sz : Z) (symbuf kept : list (Z * string)),
    qm_symbols k (module_name mp) sz = QmOk symbuf /\
    subseq kept symbuf /\
    sym_array mp = List.map (qualified (module_name mp)) kept /\
    (complete -> kept = symbuf).

(** A kernel that lists and describes [usb_core] and fails every query for
    its symbols. *)
Definition deaf_kernel : kernel :=
  {| qm_modules := qm_modules usb_kernel;
     qm_info := qm_info usb_kernel;
     qm_symbols := fun _ _ => QmError;
     stale_addr := stale_addr usb_kernel |}.

(** [usb_core] is listed together with [mute], a module that the kernel
    describes and whose symbols it refuses to give. *)
Definition mute_kernel : kernel :=
  {| qm_modules := fun sz =>
       if sz <? 128 then QmNoSpace else QmOk ["usb_core"; "mute"]%string;
     qm_info := fun n =>
       if String.eqb n "mute" then Some {| addr := 0x7000; msize := 1 |}
       else qm_info usb_kernel n;
     qm_symbols := qm_symbols usb_kernel;
     stale_addr := stale_addr usb_kernel |}.

Definition mute_table : globals := table_of mute_kernel.

(** * Properties *)

(** ** Machine integers *)

Lemma ULONG_MOD_eq : ULONG_MOD = 4294967296.
Proof. reflexivity. Qed.

Lemma to_ulong_small (x : Z) : 0 <= x < ULONG_MOD -> to_ulong x = x.
Proof. intros H. unfold to_ulong. now apply Z.mod_small. Qed.

Lemma to_ulong_to_int (x : Z) : to_ulong (to_int x) = to_ulong x.
Proof.
  unfold to_int, to_ulong.
  destruct (x mod ULONG_MOD <=? INT_MAX).
  - apply Z.mod_mod. rewrite ULONG_MOD_eq. lia.
  - rewrite <- (Z.mod_add _ 1 ULONG_MOD) by (rewrite ULONG_MOD_eq; lia).
    replace (x mod ULONG_MOD - ULONG_MOD + 1 * ULONG_MOD)
      with (x mod ULONG_MOD) by ring.
    apply Z.mod_mod. rewrite ULONG_MOD_eq. lia.
Qed.

Lemma module_end_fits (mp : Module_) :
  extent_fits mp ->
  module_end mp = module_info_addr mp + msize (module mp) * 4096.
Proof.
  intros (Ha & Hs & Hf). unfold module_end.
  rewrite (to_ulong_small (msize (module mp) * 4096)) by lia.
  apply to_ulong_small. lia.
Qed.

(** ** The scan *)

Lemma scan_syms_None (v : Z) (sym : symbol) (rest : list sym_table) :
  forall last,
    scan_syms v sym last rest = None <->
    Forall (fun s => value s <= v) rest.
Proof.
  induction rest as [|cur rest IH]; intros last; simpl.
  - split; [constructor | reflexivity].
  - destruct (value cur >? v) eqn:E.
    + split; [discriminate|]. intros H. inversion H; subst. lia.
    + rewrite IH. split.
      * intros H. constructor; [lia | exact H].
      * intros H. now inversion H.
Qed.

Lemma sorted_syms_tail (s : sym_table) (l : list sym_table) :
  sorted_syms (s :: l) -> sorted_syms l.
Proof. intros H i a b Ha Hb. exact (H (S i) a b Ha Hb). Qed.

Lemma sorted_syms_Sorted (l : list sym_table) :
  sorted_syms l <-> Sorted value_le l.
Proof.
  induction l as [|s l IH].
  - split; [constructor | intros _ [|i] a b H; discriminate].
  - split.
    + intros H. constructor.
      * apply IH. exact (sorted_syms_tail _ _ H).
      * destruct l as [|t l]; constructor.
        exact (H 0%nat s t eq_refl eq_refl).
    + intros H. inversion H as [|? ? Hl Hhd]; subst.
      intros [|i] a b Ha Hb.
      * simpl in Ha. injection Ha as <-.
        destruct l as [|t l]; [discriminate|].
        simpl in Hb. injection Hb as <-. now inversion Hhd.
      * apply IH in Hl. exact (Hl i a b Ha Hb).
Qed.

Lemma value_le_trans : Relations_1.Transitive value_le.
Proof. intros a b c. unfold value_le. lia. Qed.

(** In a sorted table every entry from the second on is at least the
    first. *)
Lemma sorted_syms_head (s : sym_table) (l : list sym_table) :
  sorted_syms (s :: l) -> Forall (fun t => value s <= value t) l.
Proof.
  intros H. apply sorted_syms_Sorted in H.
  apply Sorted_StronglySorted in H; [|exact value_le_trans].
  now inversion H.
Qed.

(** The entry the scan stops below, in a sorted table: the pair that
    brackets the address. *)
Lemma scan_syms_bracket (v : Z) (sym : symbol) (rest : list sym_table) :
  forall (last : sym_table) (i : nat) (s t : sym_table),
    sorted_syms (last :: rest) ->
    nth_error (last :: rest) i = Some s ->
    nth_error (last :: rest) (S i) = Some t ->
    value s <= v < value t ->
    scan_syms v sym last rest =
      Some (name s,
            set_size (set_offset sym (to_ulong (v - value s)))
                     (to_ulong (value t - value s))).
Proof.
  induction rest as [|cur rest IH]; intros last i s t Hs Hi Hj Hv.
  - destruct i; discriminate.
  - destruct i as [|i].
    + simpl in Hi, Hj. injection Hi as <-. injection Hj as <-.
      simpl. destruct (value cur >? v) eqn:E; [reflexivity | lia].
    + simpl in Hi. simpl scan_syms.
      assert (Hc : value cur <= value s).
      { destruct i as [|i].
        - simpl in Hi. injection Hi as <-. lia.
        - pose proof (sorted_syms_head _ _ (sorted_syms_tail _ _ Hs)) as Hall.
          rewrite Forall_forall in Hall. apply Hall.
          simpl in Hi. eapply nth_error_In; eassumption. }
      destruct (value cur >? v) eqn:E; [lia|].
      apply (IH cur i s t); auto.
      exact (sorted_syms_tail _ _ Hs).
Qed.

Lemma sorted_syms_last (init : list sym_table) (sn : sym_table) :
  sorted_syms (init ++ [sn]) ->
  Forall (fun s => value s <= value sn) (init ++ [sn]).
Proof.
  intros H. apply sorted_syms_Sorted in H.
  apply Sorted_StronglySorted in H; [|exact value_le_trans].
  induction init as [|x init IH]; simpl in *.
  - constructor; [lia | constructor].
  - inversion H as [|? ? Hl Hx]; subst. constructor; [|now apply IH].
    rewrite Forall_forall in Hx. apply Hx.
    apply in_or_app. right. now left.
Qed.

Lemma last_of_snoc (s0 : sym_table) (rest init : list sym_table)
    (sn : sym_table) :
  s0 :: rest = init ++ [sn] -> List.last rest s0 = sn.
Proof.
  destruct init as [|x init]; simpl; intros H; injection H as -> ->.
  - reflexivity.
  - apply last_last.
Qed.

(** ** One module, then the table *)

Lemma lookup_in_module_None (v : Z) (sym : symbol) (mp : Module_) :
  lookup_in_module v sym mp = None <-> passed_by v mp.
Proof.
  unfold lookup_in_module, passed_by.
  assert (Hrange : forall b,
    (v >=? module_info_addr mp) && (v <=? module_end mp) = b ->
    (b = false <-> ~ (module_info_addr mp <= v <= module_end mp))).
  { intros b Hb. destruct b.
    - apply andb_true_iff in Hb. split; [discriminate | lia].
    - apply andb_false_iff in Hb. split; [lia | reflexivity]. }
  destruct ((v >=? module_info_addr mp) && (v <=? module_end mp)) eqn:Ec;
    specialize (Hrange _ eq_refl);
    destruct (sym_array mp) as [|s0 rest]; simpl.
  - split; [discriminate | intros [_ H]; apply Hrange in H; discriminate].
  - destruct (scan_syms v sym s0 rest) as [r|] eqn:Es.
    + split; [discriminate | intros [_ H]; apply Hrange in H; discriminate].
    + split; [discriminate | intros [_ H]; apply Hrange in H; discriminate].
  - split; [intros _; split; [constructor | now apply Hrange] | reflexivity].
  - destruct (scan_syms v sym s0 rest) as [r|] eqn:Es.
    + split; [discriminate|]. intros [H _].
      apply (scan_syms_None v sym rest s0) in H. congruence.
    + apply scan_syms_None in Es.
      split; [intros _; split; [exact Es | now apply Hrange] | reflexivity].
Qed.

Lemma lookup_modules_passed (v : Z) (sym : symbol)
    (pre rest : list Module_) :
  Forall (passed_by v) pre ->
  lookup_modules v sym (pre ++ rest) = lookup_modules v sym rest.
Proof.
  induction 1 as [|mp pre Hmp _ IH]; simpl; [reflexivity|].
  apply (lookup_in_module_None v sym) in Hmp. now rewrite Hmp.
Qed.

(** The first module that is not passed by decides the lookup. *)
Lemma LookupModuleSymbol_first (v : Z) (sym : symbol) (g : globals)
    (pre post : list Module_) (mp : Module_) (n : string) (r : symbol) :
  sym_array_modules g = pre ++ mp :: post ->
  Forall (passed_by v) pre ->
  lookup_in_module v {| size := 0; offset := 0 |} mp = Some (n, r) ->
  LookupModuleSymbol v sym g = (Some n, r).
Proof.
  intros Hg Hpre Hmp. unfold LookupModuleSymbol, num_modules.
  rewrite Hg.
  change (set_offset (set_size sym 0) 0) with {| size := 0; offset := 0 |}.
  destruct (Z.of_nat (List.length (pre ++ mp :: post)) =? 0) eqn:E.
  - apply Z.eqb_eq in E. rewrite length_app in E. cbn [List.length] in E.
    lia.
  - rewrite lookup_modules_passed by assumption.
    cbn [lookup_modules]. now rewrite Hmp.
Qed.

Lemma lookup_modules_None (v : Z) (sym : symbol) (mods : list Module_) :
  forall sym', lookup_modules v sym mods = (None, sym') -> sym' = sym.
Proof.
  induction mods as [|mp mods IH]; simpl; intros sym' H.
  - now injection H.
  - destruct (lookup_in_module v sym mp) as [[n r]|]; [discriminate|].
    now apply IH.
Qed.

(** ** The tiers of the lookup *)

(** Evaluates the end of a concrete module's extent in the goal. *)
Ltac eval_end :=
  match goal with
  | |- context [module_end ?m] =>
      let v := eval vm_compute in (module_end m) in
      change (module_end m) with v
  end.

(** X14.  In a table whose modules before [mp] are all passed by for the
    address [a] (the lookup returns on the first module that yields a
    result), if [mp]'s symbols are sorted and two adjacent ones [s], [t]
    satisfy [s.address <= a < t.address], then [LookupModuleSymbol] returns
    the name of [s] with [offset = a - s.address] and
    [size = t.address - s.address]. *)
Theorem LookupModuleSymbol_bracket (g : globals) (pre post : list Module_)
    (mp : Module_) (i : nat) (s t : sym_table) (a : Z) (sym : symbol) :
  sym_array_modules g = pre ++ mp :: post ->
  Forall (passed_by a) pre ->
  sorted_syms (sym_array mp) ->
  nth_error (sym_array mp) i = Some s ->
  nth_error (sym_array mp) (S i) = Some t ->
  0 <= value s -> value t < ULONG_MOD ->
  value s <= a < value t ->
  LookupModuleSymbol a sym g =
    (Some (name s),
     {| size := value t - value s; offset := a - value s |}).
Proof.
  intros Hg Hpre Hsorted Hi Hj Hs Ht Ha.
  apply (LookupModuleSymbol_first a sym g pre post mp); auto.
  unfold lookup_in_module.
  destruct (sym_array mp) as [|s0 rest]; [destruct i; discriminate|].
  rewrite (scan_syms_bracket a _ rest s0 i s t) by assumption.
  unfold set_size, set_offset. simpl.
  rewrite !to_ulong_small by lia. reflexivity.
Qed.

Lemma LookupModuleSymbol_bracket_witness :
  InitMsyms plain_kernel no_modules [] = Done (true, plain_table, []) /\
  LookupModuleSymbol 0x1100 stale plain_table =
    (Some "usb_core:init"%string, {| size := 0x200; offset := 0x100 |}).
Proof.
  split; [reflexivity|].
  apply (LookupModuleSymbol_bracket plain_table [entry_of bare]
           [entry_of far] usb_entry 0 usb_init usb_probe 0x1100 stale).
  - reflexivity.
  - constructor; [|constructor]. split; [constructor|].
    eval_end. simpl. lia.
  - intros [|[|i]] a b Ha Hb; simpl in Ha, Hb; try discriminate.
    injection Ha as <-. injection Hb as <-. simpl. lia.
  - reflexivity.
  - reflexivity.
  - simpl. lia.
  - reflexivity.
  - simpl. lia.
Defined.

(** X15.  In a table whose modules before [mp] are all passed by for [a],
    if [mp] has sorted symbols of which [sn] is the last, the extent the
    lookup reads for it fits the address space, and [a] lies in that extent
    with [sn.address <= a], then [LookupModuleSymbol] returns the name of
    [sn] with [offset = a - sn.address] and
    [size = module_info.addr + module.size * 4096 - a]. *)
Theorem LookupModuleSymbol_tail (g : globals) (pre post : list Module_)
    (mp : Module_) (init : list sym_table) (sn : sym_table) (a : Z)
    (sym : symbol) :
  sym_array_modules g = pre ++ mp :: post ->
  Forall (passed_by a) pre ->
  sym_array mp = init ++ [sn] ->
  sorted_syms (sym_array mp) ->
  extent_fits mp ->
  0 <= value sn <= a ->
  module_info_addr mp <= a < module_info_addr mp + msize (module mp) * 4096 ->
  LookupModuleSymbol a sym g =
    (Some (name sn),
     {| size := module_info_addr mp + msize (module mp) * 4096 - a;
        offset := a - value sn |}).
Proof.
  intros Hg Hpre Hsyms Hsorted Hfits Hsn Ha.
  apply (LookupModuleSymbol_first a sym g pre post mp); auto.
  unfold lookup_in_module. rewrite (module_end_fits mp Hfits).
  rewrite Hsyms in Hsorted. pose proof (sorted_syms_last _ _ Hsorted) as Hall.
  rewrite Hsyms.
  destruct (init ++ [sn]) as [|s0 rest] eqn:E.
  { destruct init; discriminate. }
  assert (Hscan : scan_syms a {| size := 0; offset := 0 |} s0 rest = None).
  { apply scan_syms_None. inversion Hall as [|? ? _ Hrest]; subst.
    eapply Forall_impl; [|exact Hrest]. simpl. intros; lia. }
  rewrite Hscan.
  replace ((a >=? module_info_addr mp) &&
           (a <=? module_info_addr mp + msize (module mp) * 4096))
    with true by (symmetry; apply andb_true_iff; lia).
  rewrite (last_of_snoc s0 rest init sn (eq_sym E)).
  destruct Hfits as (H1 & H2 & H3).
  unfold set_size, set_offset. simpl.
  rewrite to_ulong_to_int.
  rewrite (to_ulong_small (module_info_addr mp)) by lia.
  rewrite (to_ulong_small (msize (module mp) * 4096)) by lia.
  rewrite (to_ulong_small (module_info_addr mp + msize (module mp) * 4096))
    by lia.
  rewrite !to_ulong_small by lia. reflexivity.
Qed.

Lemma LookupModuleSymbol_tail_witness :
  LookupModuleSymbol 0x1300 stale (placed_table plain_table) =
    (Some "usb_core:probe"%string, {| size := 0xD00; offset := 0x100 |}).
Proof.
  apply (LookupModuleSymbol_tail (placed_table plain_table)
           [placed (entry_of bare)] [placed (entry_of far)]
           (placed usb_entry) [usb_init] usb_probe 0x1300 stale).
  - reflexivity.
  - constructor; [|constructor]. split; [constructor|].
    eval_end. simpl. lia.
  - reflexivity.
  - intros [|[|i]] a b Ha Hb; simpl in Ha, Hb; try discriminate.
    injection Ha as <-. injection Hb as <-. simpl. lia.
  - unfold extent_fits. simpl. rewrite ULONG_MOD_eq. lia.
  - simpl. lia.
  - simpl. lia.
Defined.

(** X16.  In a table whose modules before [mp] are all passed by for [a],
    if [mp] has no symbols and the extent the lookup reads for it fits the
    address space and holds [a], then [LookupModuleSymbol] returns the bare
    module name with [offset = a - module_info.addr] and
    [size = module.size * 4096]. *)
Theorem LookupModuleSymbol_no_symbols (g : globals)
    (pre post : list Module_) (mp : Module_) (a : Z) (sym : symbol) :
  sym_array_modules g = pre ++ mp :: post ->
  Forall (passed_by a) pre ->
  sym_array mp = [] ->
  extent_fits mp ->
  module_info_addr mp <= a < module_info_addr mp + msize (module mp) * 4096 ->
  LookupModuleSymbol a sym g =
    (Some (module_name mp),
     {| size := msize (module mp) * 4096; offset := a - module_info_addr mp |}).
Proof.
  intros Hg Hpre Hsyms Hfits Ha.
  apply (LookupModuleSymbol_first a sym g pre post mp); auto.
  unfold lookup_in_module. rewrite (module_end_fits mp Hfits), Hsyms.
  replace ((a >=? module_info_addr mp) &&
           (a <=? module_info_addr mp + msize (module mp) * 4096))
    with true by (symmetry; apply andb_true_iff; lia).
  destruct Hfits as (H1 & H2 & H3).
  unfold set_size, set_offset. simpl.
  rewrite !to_ulong_small by lia. reflexivity.
Qed.

Lemma LookupModuleSymbol_no_symbols_witness :
  LookupModuleSymbol 0x9100 stale (placed_table plain_table) =
    (Some "far"%string, {| size := 0x1000; offset := 0x100 |}).
Proof.
  apply (LookupModuleSymbol_no_symbols (placed_table plain_table)
           [placed (entry_of bare); placed usb_entry] []
           (placed (entry_of far)) 0x9100 stale).
  - reflexivity.
  - constructor; [|constructor; [|constructor]].
    + split; [constructor|].
      eval_end. simpl. lia.
    + split; [simpl; constructor; [simpl; lia | constructor]|].
      eval_end. simpl. lia.
  - reflexivity.
  - unfold extent_fits. simpl. rewrite ULONG_MOD_eq. lia.
  - simpl. lia.
Defined.

(** A table all of whose modules are passed by gives no result, and only
    such a table does. *)
Lemma LookupModuleSymbol_miss (a : Z) (sym : symbol) (g : globals) :
  fst (LookupModuleSymbol a sym g) = None <->
  Forall (passed_by a) (sym_array_modules g).
Proof.
  unfold LookupModuleSymbol, num_modules.
  destruct (Z.of_nat (List.length (sym_array_modules g)) =? 0) eqn:E.
  - apply Z.eqb_eq in E.
    destruct (sym_array_modules g); [|simpl in E; lia].
    split; [constructor | reflexivity].
  - clear E. generalize (set_offset (set_size sym 0) 0). intros z.
    induction (sym_array_modules g) as [|mp mods IH]; simpl.
    + split; [constructor | reflexivity].
    + destruct (lookup_in_module a z mp) as [[n r]|] eqn:Em.
      * split; [discriminate|]. intros H. inversion H; subst.
        apply (lookup_in_module_None a z) in H2. congruence.
      * apply lookup_in_module_None in Em. rewrite IH.
        split; [now constructor | intros H; now inversion H].
Qed.

(** When the first symbol of a module is not above the address, the pair the
    scan stops at does bracket the address.  The source never compares the
    address with the first symbol. *)
Lemma scan_syms_above_first (v : Z) (sym : symbol) (rest : list sym_table) :
  forall (last : sym_table) (n : string) (r : symbol),
    value last <= v ->
    scan_syms v sym last rest = Some (n, r) ->
    exists (i : nat) (s t : sym_table),
      nth_error (last :: rest) i = Some s /\
      nth_error (last :: rest) (S i) = Some t /\
      value s <= v < value t /\ n = name s.
Proof.
  induction rest as [|cur rest IH]; intros last n r Hl H; [discriminate|].
  simpl in H. destruct (value cur >? v) eqn:E.
  - injection H as <- _. exists 0%nat, last, cur.
    repeat split; auto; lia.
  - destruct (IH cur n r ltac:(lia) H) as (i & s & t & Hi & Hj & Hv & Hn).
    exists (S i), s, t. repeat split; auto; lia.
Qed.

(** C4: the scan of [usb_core] for 0x500, an address below [init] at 0x1000,
    stops at the pair [(init, probe)] and returns [init]; the address is not
    in [[init.address, probe.address)] and the offset is [0x500 - 0x1000]
    reduced modulo [2^32]. *)
Theorem scan_returns_below_first_symbol :
  InitMsyms usb_kernel no_modules [] = Done (true, usb_table, []) /\
  sym_array_modules usb_table = [usb_entry] /\
  scan_syms 0x500 {| size := 0; offset := 0 |} usb_init [usb_probe] =
    Some ("usb_core:init"%string, {| size := 0x200; offset := 0xFFFFF500 |}) /\
  LookupModuleSymbol 0x500 stale usb_table =
    (Some "usb_core:init"%string, {| size := 0x200; offset := 0xFFFFF500 |}) /\
  ~ (value usb_init <= 0x500).
Proof.
  repeat split; try reflexivity. simpl. lia.
Qed.

(** The same defect lets a module keep the addresses of a later module that
    lies below it: in [two_table], 0x1100 is bracketed by [init] and [probe]
    of [usb_core], and is given to [ext3]. *)
Example lower_module_misattributed :
  InitMsyms two_kernel no_modules [] = Done (true, two_table, []) /\
  LookupModuleSymbol 0x1100 stale two_table =
    (Some "ext3:read"%string, {| size := 0x200; offset := 0xFFFFC100 |}).
Proof. split; reflexivity. Qed.

(** C1: in a table built from three modules clear of each other, [ext3] at
    0x5000 first, the address 0x1100 is bracketed by [init] and [probe] of
    [usb_core]; the scan of [ext3] stops at its first pair and the lookup
    returns [ext3:read], the offset being [0x1100 - 0x5000] reduced modulo
    [2^32].  The scan reads no base address: the result is the same
    whatever the memory of the table held. *)
Theorem bracketed_address_given_to_earlier_module (st : nat -> Z) :
  InitMsyms (with_memory st two_kernel) no_modules [] =
    Done (true, table_of (with_memory st two_kernel), []) /\
  List.map sym_array
    (sym_array_modules (table_of (with_memory st two_kernel))) =
    [[mk_sym 0x5000 "ext3:read"; mk_sym 0x5200 "ext3:write"];
     [usb_init; usb_probe]; []] /\
  value usb_init <= 0x1100 < value usb_probe /\
  LookupModuleSymbol 0x1100 stale (table_of (with_memory st two_kernel)) =
    (Some "ext3:read"%string, {| size := 0x200; offset := 0xFFFFC100 |}).
Proof.
  repeat split; try reflexivity. simpl. lia.
Qed.

(** C5: 0x4000 lies in none of the three modules of [two_kernel] (one page
    each at 0x5000, 0x1000 and 0x2000) and no pair of symbols brackets it;
    the scan of [ext3] stops at its first pair all the same and the lookup
    returns [ext3:read], whatever the memory of the table held. *)
Theorem unmapped_address_resolves (st : nat -> Z) :
  InitMsyms (with_memory st two_kernel) no_modules [] =
    Done (true, table_of (with_memory st two_kernel), []) /\
  List.map module (sym_array_modules (table_of (with_memory st two_kernel))) =
    [ {| addr := 0x5000; msize := 1 |}; {| addr := 0x1000; msize := 1 |};
      {| addr := 0x2000; msize := 1 |} ] /\
  List.map sym_array
    (sym_array_modules (table_of (with_memory st two_kernel))) =
    [[mk_sym 0x5000 "ext3:read"; mk_sym 0x5200 "ext3:write"];
     [usb_init; usb_probe]; []] /\
  LookupModuleSymbol 0x4000 stale (table_of (with_memory st two_kernel)) =
    (Some "ext3:read"%string, {| size := 0x200; offset := 0xFFFFF000 |}).
Proof.
  repeat split; reflexivity.
Qed.

(** The range test takes the end of the extent too (l.617): where the
    lookup reads the base that the kernel reported, 0x2000 = 0x1000 + 1 *
    4096, the first address past [usb_core], is resolved with size 0. *)
Example end_boundary_inclusive :
  module_end (placed usb_entry) = 0x2000 /\
  LookupModuleSymbol 0x2000 stale (placed_table usb_table) =
    (Some "usb_core:probe"%string, {| size := 0; offset := 0xE00 |}) /\
  LookupModuleSymbol 0x2001 stale (placed_table usb_table) =
    (None, {| size := 0; offset := 0 |}).
Proof. repeat split; reflexivity. Qed.

(** C6: 0x1300 lies in [usb_core] (one page at 0x1000) above [probe], its
    last symbol.  The range test reads [module_info.addr], which the build
    left as the memory held it: on zeroed memory the extent read is
    [0, 0x1000] and the lookup returns no name.  Had the memory held 0x1000
    the fallback would have been taken. *)
Theorem tail_address_unresolved :
  InitMsyms usb_kernel no_modules [] = Done (true, usb_table, []) /\
  sym_array_modules usb_table = [usb_entry] /\
  addr (module usb_entry) <= 0x1300 <
    addr (module usb_entry) + msize (module usb_entry) * 4096 /\
  value usb_probe <= 0x1300 /\
  module_info_addr usb_entry = stale_addr usb_kernel 0 /\
  LookupModuleSymbol 0x1300 stale usb_table =
    (None, {| size := 0; offset := 0 |}) /\
  LookupModuleSymbol 0x1300 stale
    (table_of (with_memory (fun _ => 0x1000) usb_kernel)) =
    (Some "usb_core:probe"%string, {| size := 0xD00; offset := 0x100 |}).
Proof.
  repeat split; try reflexivity; simpl; lia.
Qed.

(** C7: 0x2100 lies in [bare], a module without symbols, one page at
    0x2000.  On zeroed memory the extent the lookup reads for it is
    [0, 0x1000] and the lookup returns no name; had the memory held 0x2000
    it would have returned the module name. *)
Theorem module_without_symbols_unresolved :
  InitMsyms bare_kernel no_modules [] = Done (true, bare_table, []) /\
  sym_array_modules bare_table = [entry_of bare] /\
  addr (module (entry_of bare)) <= 0x2100 <
    addr (module (entry_of bare)) + msize (module (entry_of bare)) * 4096 /\
  module_info_addr (entry_of bare) = stale_addr bare_kernel 0 /\
  LookupModuleSymbol 0x2100 stale bare_table =
    (None, {| size := 0; offset := 0 |}) /\
  LookupModuleSymbol 0x2100 stale
    (table_of (with_memory (fun _ => 0x2000) bare_kernel)) =
    (Some "bare"%string, {| size := 0x1000; offset := 0x100 |}).
Proof.
  repeat split; try reflexivity; simpl; lia.
Qed.

(** C10: [LookupModuleSymbol] gives the same answer whatever the caller's
    structure held, the one it gives on a structure holding 0 and 0; and
    when it returns no name, the structure holds [offset = 0] and
    [size = 0]. *)
Theorem LookupModuleSymbol_clears (a : Z) (sym : symbol) (g : globals) :
  LookupModuleSymbol a sym g =
    LookupModuleSymbol a {| size := 0; offset := 0 |} g /\
  (fst (LookupModuleSymbol a sym g) = None ->
   snd (LookupModuleSymbol a sym g) = {| size := 0; offset := 0 |}).
Proof.
  split; [reflexivity|].
  unfold LookupModuleSymbol.
  change (set_offset (set_size sym 0) 0) with {| size := 0; offset := 0 |}.
  destruct (num_modules g =? 0); [reflexivity|].
  destruct (lookup_modules a {| size := 0; offset := 0 |}
              (sym_array_modules g)) as [[n|] r] eqn:E; simpl.
  - discriminate.
  - intros _. now apply (lookup_modules_None a _ (sym_array_modules g)).
Qed.

Lemma LookupModuleSymbol_clears_witness :
  LookupModuleSymbol 0x2001 stale usb_table =
    (None, {| size := 0; offset := 0 |}).
Proof.
  pose proof (LookupModuleSymbol_clears 0x2001 stale usb_table) as [_ H].
  specialize (H eq_refl).
  destruct (LookupModuleSymbol 0x2001 stale usb_table) as [n r] eqn:E.
  simpl in H. rewrite H. f_equal.
  change n with (fst (n, r)). rewrite <- E. reflexivity.
Defined.

(** ** symsort and the sorted tables *)

Lemma symsort_le (x y : sym_table) :
  (symsort x y <=? 0) = true <-> value x <= value y.
Proof.
  unfold symsort.
  destruct (value x <? value y) eqn:E1; [simpl; split; [lia | reflexivity]|].
  destruct (value x =? value y) eqn:E2; simpl.
  - split; [lia | reflexivity].
  - split; [discriminate | lia].
Qed.

Lemma qsort_insert_hd (x y : sym_table) (l : list sym_table) :
  value y <= value x -> HdRel value_le y l ->
  HdRel value_le y (qsort_insert symsort x l).
Proof.
  intros Hyx Hl. destruct l as [|z l]; simpl.
  - constructor. exact Hyx.
  - destruct (symsort x z <=? 0); constructor; [exact Hyx|].
    now inversion Hl.
Qed.

Lemma qsort_insert_sorted (x : sym_table) (l : list sym_table) :
  Sorted value_le l -> Sorted value_le (qsort_insert symsort x l).
Proof.
  induction 1 as [|y l Hl IH Hy]; simpl.
  - repeat constructor.
  - destruct (symsort x y <=? 0) eqn:E.
    + apply symsort_le in E. repeat constructor; assumption.
    + constructor; [exact IH|].
      apply qsort_insert_hd; [|exact Hy].
      assert (~ value x <= value y) by (rewrite <- symsort_le; congruence).
      lia.
Qed.

Lemma qsort_sorted (l : list sym_table) : Sorted value_le (qsort symsort l).
Proof.
  induction l as [|x l IH]; simpl; [constructor|].
  now apply qsort_insert_sorted.
Qed.

Lemma qsort_insert_perm {A : Type} (compar : A -> A -> Z) (x : A)
    (l : list A) :
  Permutation (x :: l) (qsort_insert compar x l).
Proof.
  induction l as [|y l IH]; simpl; [reflexivity|].
  destruct (compar x y <=? 0); [reflexivity|].
  rewrite perm_swap. now constructor.
Qed.

(** The sort keeps the entries. *)
Lemma qsort_perm {A : Type} (compar : A -> A -> Z) (l : list A) :
  Permutation l (qsort compar l).
Proof.
  induction l as [|x l IH]; simpl; [constructor|].
  rewrite <- qsort_insert_perm. now constructor.
Qed.

Lemma sort_module_sorted (mp : Module_) :
  sorted_syms (sym_array (sort_module mp)).
Proof.
  unfold sort_module, num_syms.
  destruct (Z.of_nat (List.length (sym_array mp)) <? 2) eqn:E.
  - apply Z.ltb_lt in E. intros i s t Hi Hj.
    assert (Hlen : (S i < List.length (sym_array mp))%nat)
      by (apply nth_error_Some; congruence).
    lia.
  - simpl. apply sorted_syms_Sorted, qsort_sorted.
Qed.

Lemma sort_module_name (mp : Module_) :
  module_name (sort_module mp) = module_name mp /\
  module (sort_module mp) = module mp.
Proof.
  unfold sort_module. destruct (num_syms mp <? 2); split; reflexivity.
Qed.

(** C9: after [InitMsyms] has returned 1, the symbols of every module of the
    table are in ascending order of address:
    [symbols[i].address <= symbols[i+1].address] for every valid [i]. *)
Theorem InitMsyms_sorted (k : kernel) (g : globals) (h : heap)
    (g' : globals) (h' : heap) :
  InitMsyms k g h = Done (true, g', h') ->
  forall (mp : Module_), In mp (sym_array_modules g') ->
  forall (i : nat) (s t : sym_table),
    nth_error (sym_array mp) i = Some s ->
    nth_error (sym_array mp) (S i) = Some t ->
    value s <= value t.
Proof.
  unfold InitMsyms. intros H.
  destruct (grow_query LOOP_FUEL (qm_modules k) 32 h)
    as [[[names|] h1]| |]; try discriminate.
  destruct (Z.of_nat (List.length names) <=? 0); [discriminate|].
  destruct (alloc h1) as [[|] h2]; simpl in H; [|discriminate].
  destruct (alloc h2) as [[|] h3]; simpl in H; [|discriminate].
  destruct (add_modules k names (FreeModules g) intact h3)
    as [[[[[|] g1] [|[|]]] h4]| |]; try discriminate.
  injection H as <- _. simpl. intros mp Hin.
  apply in_map_iff in Hin. destruct Hin as (m & <- & _).
  exact (sort_module_sorted m).
Qed.

Lemma InitMsyms_sorted_witness :
  InitMsyms usb_kernel no_modules [] = Done (true, usb_table, []) /\
  value usb_init <= value usb_probe.
Proof.
  split; [reflexivity|].
  apply (InitMsyms_sorted usb_kernel no_modules [] usb_table []
           eq_refl usb_entry (or_introl eq_refl) 0%nat usb_init usb_probe);
    reflexivity.
Defined.

(** ** The grow-and-retry loop *)

(** The recursion bound is never what ends the loop: once the size has
    doubled past [INT_MAX], more fuel changes nothing. *)
Lemma grow_query_fuel {A : Type} (q : Z -> qm_result A) (f1 : nat) :
  forall (f2 : nat) (b : Z) (h : heap),
    (f1 <= f2)%nat -> 1 <= b -> INT_MAX < b * 2 ^ Z.of_nat f1 ->
    grow_query f2 q b h = grow_query f1 q b h.
Proof.
  induction f1 as [|f1 IH]; intros f2 b h Hf Hb Hmax.
  - simpl in Hmax. destruct f2 as [|f2]; [reflexivity|]. simpl.
    destruct (b + b >? INT_MAX) eqn:E; [reflexivity | lia].
  - destruct f2 as [|f2]; [lia|]. simpl.
    destruct (b + b >? INT_MAX); [reflexivity|].
    destruct (alloc h) as [ok h1]. destruct (negb ok); [reflexivity|].
    destruct (q (b + b)); try reflexivity.
    apply IH; [lia | lia |].
    rewrite Nat2Z.inj_succ, Z.pow_succ_r in Hmax by lia. lia.
Qed.

Lemma LOOP_FUEL_enough {A : Type} (q : Z -> qm_result A) (fuel : nat)
    (b : Z) (h : heap) :
  (LOOP_FUEL <= fuel)%nat -> 1 <= b ->
  grow_query fuel q b h = grow_query LOOP_FUEL q b h.
Proof.
  intros Hf Hb. apply grow_query_fuel; [exact Hf | exact Hb|].
  change (2 ^ Z.of_nat LOOP_FUEL) with 4294967296.
  change INT_MAX with 2147483647. lia.
Qed.

(** An answer of the loop is an answer of the kernel. *)
Lemma grow_query_Some {A : Type} (q : Z -> qm_result A) (fuel : nat) :
  forall (b : Z) (h : heap) (r : A) (h' : heap),
    grow_query fuel q b h = Done (Some r, h') ->
    exists sz, q sz = QmOk r.
Proof.
  induction fuel as [|fuel IH]; intros b h r h' H; [discriminate|].
  simpl in H. destruct (b + b >? INT_MAX); [discriminate|].
  destruct (alloc h) as [ok h1]. destruct (negb ok); [discriminate|].
  destruct (q (b + b)) as [rtn| |] eqn:E; try discriminate.
  - injection H as <- _. now exists (b + b).
  - exact (IH _ _ _ _ H).
Qed.

Lemma alloc_ok (n : nat) (h : heap) :
  Forall (eq true) (firstn (S n) h) ->
  alloc h = (true, skipn 1 h) /\ Forall (eq true) (firstn n (skipn 1 h)).
Proof.
  destruct h as [|ok h]; simpl.
  - intros _. split; [reflexivity|]. destruct n; constructor.
  - intros H. inversion H; subst. split; [reflexivity | assumption].
Qed.

(** [n] rounds on [ENOSPC] with allocations that succeed: the loop has
    doubled the size [n + 1] times and the answer to the query with
    [seed * 2^(n+1)] bytes decides. *)
Lemma grow_query_rounds {A : Type} (q : Z -> qm_result A) (n : nat) :
  forall (fuel : nat) (seed : Z) (h : heap),
    (n < fuel)%nat -> 0 < seed ->
    seed * 2 ^ (Z.of_nat n + 1) <= INT_MAX ->
    (forall j, 1 <= j <= Z.of_nat n -> q (seed * 2 ^ j) = QmNoSpace) ->
    Forall (eq true) (firstn (S n) h) ->
    grow_query fuel q seed h =
      match q (seed * 2 ^ (Z.of_nat n + 1)) with
      | QmOk r => Done (Some r, skipn (S n) h)
      | QmError => Done (None, skipn (S n) h)
      | QmNoSpace =>
          grow_query (fuel - S n) q (seed * 2 ^ (Z.of_nat n + 1))
            (skipn (S n) h)
      end.
Proof.
  induction n as [|n IH]; intros fuel seed h Hf Hs Hmax Hq Hh.
  - destruct fuel as [|fuel]; [lia|]. simpl grow_query.
    change (Z.of_nat 0 + 1) with 1 in *. rewrite Z.pow_1_r in *.
    replace (seed + seed) with (seed * 2) by ring.
    destruct (seed * 2 >? INT_MAX) eqn:E; [lia|].
    destruct (alloc_ok 0 h Hh) as [-> _]. simpl negb. cbv iota.
    rewrite Nat.sub_0_r. reflexivity.
  - destruct fuel as [|fuel]; [lia|]. simpl grow_query.
    assert (Hpow : 2 ^ (Z.of_nat (S n) + 1) = 2 * 2 ^ (Z.of_nat n + 1)).
    { replace (Z.of_nat (S n) + 1) with (Z.succ (Z.of_nat n + 1)) by lia.
      apply Z.pow_succ_r. lia. }
    assert (Hpos : 0 < 2 ^ (Z.of_nat n + 1)) by (apply Z.pow_pos_nonneg; lia).
    destruct (seed + seed >? INT_MAX) eqn:E; [nia|].
    destruct (alloc_ok (S n) h Hh) as [-> Hh']. simpl negb. cbv iota.
    replace (seed + seed) with (seed * 2 ^ 1) at 1 by (rewrite Z.pow_1_r; ring).
    rewrite (Hq 1) by lia.
    rewrite (IH fuel (seed + seed) (skipn 1 h)); try lia; try assumption.
    + replace ((seed + seed) * 2 ^ (Z.of_nat n + 1))
        with (seed * 2 ^ (Z.of_nat (S n) + 1)) by (rewrite Hpow; ring).
      rewrite skipn_skipn. replace (S n + 1)%nat with (S (S n)) by lia.
      reflexivity.
    + intros j Hj.
      replace ((seed + seed) * 2 ^ j) with (seed * 2 ^ (j + 1))
        by (rewrite Z.pow_add_r by lia; rewrite Z.pow_1_r; ring).
      apply Hq. lia.
Qed.

(** The same rounds whatever the allocator does: either an allocation fails
    on the way and the loop leaves with no answer, or the answer to the query
    with [seed * 2^(n+1)] bytes decides. *)
Lemma grow_query_any_heap {A : Type} (q : Z -> qm_result A) (n : nat) :
  forall (fuel : nat) (seed : Z) (h : heap),
    (n < fuel)%nat -> 0 < seed ->
    seed * 2 ^ (Z.of_nat n + 1) <= INT_MAX ->
    (forall j, 1 <= j <= Z.of_nat n -> q (seed * 2 ^ j) = QmNoSpace) ->
    exists h',
      grow_query fuel q seed h = Done (None, h') \/
      grow_query fuel q seed h =
        match q (seed * 2 ^ (Z.of_nat n + 1)) with
        | QmOk r => Done (Some r, h')
        | QmError => Done (None, h')
        | QmNoSpace =>
            grow_query (fuel - S n) q (seed * 2 ^ (Z.of_nat n + 1)) h'
        end.
Proof.
  induction n as [|n IH]; intros fuel seed h Hf Hs Hmax Hq.
  - destruct fuel as [|fuel]; [lia|]. simpl grow_query.
    change (Z.of_nat 0 + 1) with 1 in *. rewrite Z.pow_1_r in *.
    replace (seed + seed) with (seed * 2) by ring.
    destruct (seed * 2 >? INT_MAX) eqn:E; [lia|].
    destruct (alloc h) as [[|] h1]; simpl negb; cbv iota.
    + exists h1. right. rewrite Nat.sub_0_r. reflexivity.
    + exists h1. now left.
  - destruct fuel as [|fuel]; [lia|]. cbn [grow_query].
    assert (Hpow : 2 ^ (Z.of_nat (S n) + 1) = 2 * 2 ^ (Z.of_nat n + 1)).
    { replace (Z.of_nat (S n) + 1) with (Z.succ (Z.of_nat n + 1)) by lia.
      apply Z.pow_succ_r. lia. }
    assert (Hpos : 0 < 2 ^ (Z.of_nat n + 1)) by (apply Z.pow_pos_nonneg; lia).
    destruct (seed + seed >? INT_MAX) eqn:E; [nia|].
    destruct (alloc h) as [[|] h1]; simpl negb; cbv iota;
      [|exists h1; now left].
    assert (Hq1 : q (seed + seed) = QmNoSpace).
    { replace (seed + seed) with (seed * 2 ^ 1) by (rewrite Z.pow_1_r; ring).
      apply Hq. lia. }
    rewrite Hq1.
    replace (seed * 2 ^ (Z.of_nat (S n) + 1))
      with ((seed + seed) * 2 ^ (Z.of_nat n + 1)) by (rewrite Hpow; ring).
    apply (IH fuel (seed + seed) h1); try lia.
    intros j Hj.
    replace ((seed + seed) * 2 ^ j) with (seed * 2 ^ (j + 1))
      by (rewrite Z.pow_add_r by lia; rewrite Z.pow_1_r; ring).
    apply Hq. lia.
Qed.

Lemma rounds_below_fuel (seed : Z) (n : nat) :
  0 < seed -> seed * 2 ^ (Z.of_nat n + 1) <= INT_MAX -> (n < LOOP_FUEL)%nat.
Proof.
  intros Hs Hmax. unfold LOOP_FUEL.
  destruct (Nat.lt_ge_cases n 32) as [H|H]; [exact H|exfalso].
  assert (2 ^ 32 <= 2 ^ (Z.of_nat n + 1))
    by (apply Z.pow_le_mono_r; lia).
  change INT_MAX with 2147483647 in Hmax.
  change (2 ^ 32) with 4294967296 in *. nia.
Qed.

(** C8, as amended.  A loop started with [seed] bytes asks with
    [seed * 2], [seed * 4], ...: when the first [n] answers are [ENOSPC], the
    [n + 1] allocations succeed and [seed * 2^(n+1)] is still an [int], the
    answer to the query with [seed * 2^(n+1)] bytes ends the loop: an answer
    is handed on, an error other than [ENOSPC] leaves with no answer. *)
Theorem grow_query_retry {A : Type} (q : Z -> qm_result A) (seed : Z)
    (n : nat) (h : heap) :
  0 < seed ->
  seed * 2 ^ (Z.of_nat n + 1) <= INT_MAX ->
  (forall j, 1 <= j <= Z.of_nat n -> q (seed * 2 ^ j) = QmNoSpace) ->
  Forall (eq true) (firstn (S n) h) ->
  (forall r, q (seed * 2 ^ (Z.of_nat n + 1)) = QmOk r ->
     grow_query LOOP_FUEL q seed h = Done (Some r, skipn (S n) h)) /\
  (q (seed * 2 ^ (Z.of_nat n + 1)) = QmError ->
     grow_query LOOP_FUEL q seed h = Done (None, skipn (S n) h)).
Proof.
  intros Hs Hmax Hq Hh.
  pose proof (grow_query_rounds q n LOOP_FUEL seed h
                (rounds_below_fuel seed n Hs Hmax) Hs Hmax Hq Hh) as E.
  split.
  - intros r Hr. now rewrite E, Hr.
  - intros Hr. now rewrite E, Hr.
Qed.

Lemma grow_query_retry_witness :
  grow_query LOOP_FUEL (qm_modules usb_kernel) 32 [] =
    Done (Some ["usb_core"%string], []) /\
  grow_query LOOP_FUEL (qm_symbols usb_kernel "gone") 128 [true; false] =
    Done (None, [false]).
Proof.
  split.
  - apply (grow_query_retry (qm_modules usb_kernel) 32 1 []).
    + lia.
    + vm_compute. discriminate.
    + intros j Hj. assert (j = 1) as -> by (simpl in Hj; lia). reflexivity.
    + constructor.
    + reflexivity.
  - apply (grow_query_retry (qm_symbols usb_kernel "gone") 128 0
             [true; false]).
    + lia.
    + vm_compute. discriminate.
    + intros j Hj. simpl in Hj. lia.
    + repeat constructor.
    + reflexivity.
Defined.

(** The enclosing functions return 0 when the loop leaves with no answer. *)
Lemma InitMsyms_list_query_fails (k : kernel) (g : globals) (h h' : heap) :
  grow_query LOOP_FUEL (qm_modules k) 32 h = Done (None, h') ->
  InitMsyms k g h = Done (false, no_modules, h').
Proof. intros H. unfold InitMsyms. now rewrite H. Qed.

Lemma AddModule_symbol_query_fails (k : kernel) (n : string) (g : globals)
    (info : module_info) (h h1 h' : heap) :
  have_modules g = false ->
  qm_info k n = Some info ->
  alloc h = (true, h1) ->
  grow_query LOOP_FUEL (qm_symbols k n) 128 h1 = Done (None, h') ->
  exists g', AddModule k n g h = Done (false, g', intact, h').
Proof.
  intros Hg Hi Ha H. unfold AddModule. rewrite Hg, Hi, Ha. simpl negb.
  cbv iota. rewrite H. eexists. reflexivity.
Qed.

(** C8, as stated, fails: [large_kernel] hands out its module list to any
    buffer of more than 2^30 bytes.  The loop asks with 64, 128, ..., 2^30
    bytes; the next size is not an [int], and the list is never obtained,
    however many rounds the model allows and although every allocation
    succeeds.  A failed [realloc] ends the loop as well: [usb_kernel] is
    satisfied with 128 bytes, and is not asked twice when the second
    allocation fails. *)
Lemma retry_stops_at_int_max :
  (forall sz, 2 ^ 30 < sz ->
     qm_modules large_kernel sz = QmOk ["usb_core"%string]) /\
  (forall fuel, (LOOP_FUEL <= fuel)%nat ->
     grow_query fuel (qm_modules large_kernel) 32 [] = Undefined) /\
  InitMsyms large_kernel no_modules [] = Undefined /\
  qm_modules usb_kernel 128 = QmOk ["usb_core"%string] /\
  InitMsyms usb_kernel no_modules [true; false] =
    Done (false, no_modules, []).
Proof.
  split; [|split; [|split; [|split]]].
  - intros sz Hsz. unfold large_kernel. cbn [qm_modules].
    destruct (sz <=? 2 ^ 30) eqn:E; [lia | reflexivity].
  - intros fuel Hf. rewrite LOOP_FUEL_enough by (auto; lia).
    vm_compute. reflexivity.
  - vm_compute. reflexivity.
  - reflexivity.
  - reflexivity.
Qed.

(** ** InitMsyms *)

(** C3, as amended.  When the answer to the module-list query reports zero
    modules (after any number of rounds on [ENOSPC]), [InitMsyms] returns 0,
    the value it returns when something went wrong, and leaves the table
    empty; [LookupModuleSymbol] then returns no name, for every address. *)
Theorem InitMsyms_zero_modules (k : kernel) (g : globals) (h : heap)
    (n : nat) :
  32 * 2 ^ (Z.of_nat n + 1) <= INT_MAX ->
  (forall j, 1 <= j <= Z.of_nat n -> qm_modules k (32 * 2 ^ j) = QmNoSpace) ->
  qm_modules k (32 * 2 ^ (Z.of_nat n + 1)) = QmOk [] ->
  exists h',
    InitMsyms k g h = Done (false, no_modules, h') /\
    forall (a : Z) (sym : symbol),
      LookupModuleSymbol a sym no_modules =
        (None, {| size := 0; offset := 0 |}).
Proof.
  intros Hmax Hq Hr.
  assert (Hs : 0 < 32) by lia.
  destruct (grow_query_any_heap (qm_modules k) n LOOP_FUEL 32 h
              (rounds_below_fuel 32 n Hs Hmax) Hs Hmax Hq) as (h' & [E|E]);
    exists h'; (split; [|reflexivity]); unfold InitMsyms; rewrite E.
  - reflexivity.
  - rewrite Hr. reflexivity.
Qed.

Lemma InitMsyms_zero_modules_witness :
  exists h',
    InitMsyms empty_kernel no_modules [] = Done (false, no_modules, h') /\
    forall (a : Z) (sym : symbol),
      LookupModuleSymbol a sym no_modules =
        (None, {| size := 0; offset := 0 |}).
Proof.
  apply (InitMsyms_zero_modules empty_kernel no_modules [] 1).
  - vm_compute. discriminate.
  - intros j Hj. assert (j = 1) as -> by (simpl in Hj; lia). reflexivity.
  - reflexivity.
Defined.

(** C3, as stated, fails: on a kernel that reports zero modules [InitMsyms]
    does not return 1. *)
Lemma zero_modules_returns_0 :
  qm_modules empty_kernel 128 = QmOk [] /\
  InitMsyms empty_kernel no_modules [] = Done (false, no_modules, []) /\
  forall g' h', InitMsyms empty_kernel no_modules [] <> Done (true, g', h').
Proof.
  split; [reflexivity|]. split; [reflexivity|].
  intros g' h'. vm_compute. discriminate.
Qed.

(** ** The name of an entry *)

Lemma string_length_append (s1 s2 : string) :
  String.length (s1 ++ s2)%string = (String.length s1 + String.length s2)%nat.
Proof. induction s1 as [|c s1 IH]; simpl; [reflexivity | now rewrite IH]. Qed.

Lemma string_append_assoc (s1 s2 s3 : string) :
  ((s1 ++ s2) ++ s3 = s1 ++ s2 ++ s3)%string.
Proof. induction s1 as [|c s1 IH]; simpl; [reflexivity | now rewrite IH]. Qed.

(** The three writes of [AddSymbol] into a block of [n] bytes: they stay
    inside it exactly when it has room for the two names, the colon and the
    terminator. *)
Lemma name_written (mname symbol_ : string) (n : Z) :
  match strcpy (memset_zero n) mname with
  | None => None
  | Some b =>
      match strcat b ":" with
      | None => None
      | Some b => strcat b symbol_
      end
  end =
  if Z.of_nat (String.length symbol_) +
     (Z.of_nat (String.length mname) + 1) + 1 <=? n
  then Some {| bytes := n; text := (mname ++ ":" ++ symbol_)%string |}
  else None.
Proof.
  unfold strcpy, strcat, memset_zero. cbn [bytes text].
  destruct (Z.of_nat (String.length mname) + 1 <=? n) eqn:E1;
    cbn [bytes text].
  2:{ apply Z.leb_gt in E1.
      destruct (_ <=? n) eqn:E; [apply Z.leb_le in E; lia | reflexivity]. }
  apply Z.leb_le in E1.
  change (Z.of_nat (String.length ":")) with 1.
  destruct (Z.of_nat (String.length mname) + 1 + 1 <=? n) eqn:E2;
    cbn [bytes text].
  2:{ apply Z.leb_gt in E2.
      destruct (_ <=? n) eqn:E; [apply Z.leb_le in E; lia | reflexivity]. }
  rewrite string_length_append. change (String.length ":") with 1%nat.
  rewrite string_append_assoc.
  replace (Z.of_nat (String.length mname + 1) +
           Z.of_nat (String.length symbol_) + 1)
    with (Z.of_nat (String.length symbol_) +
          (Z.of_nat (String.length mname) + 1) + 1) by lia.
  reflexivity.
Qed.

(** ** AddSymbol and the loop over the symbols *)

Lemma subseq_refl {A : Type} (l : list A) : subseq l l.
Proof. induction l; constructor; assumption. Qed.

Lemma subseq_length {A : Type} (kept l : list A) :
  subseq kept l -> (List.length kept <= List.length l)%nat.
Proof. induction 1; simpl; lia. Qed.

Lemma subseq_In {A : Type} (kept l : list A) (x : A) :
  subseq kept l -> In x kept -> In x l.
Proof.
  induction 1 as [|y kept l _ IH|y kept l _ IH]; simpl; intros H; auto.
  destruct H as [->|H]; auto.
Qed.

Lemma alloc_all_true (h : heap) :
  Forall (eq true) h ->
  exists h', alloc h = (true, h') /\ Forall (eq true) h'.
Proof.
  destruct h as [|ok h]; simpl; intros H.
  - exists []. split; [reflexivity | constructor].
  - inversion H; subst. exists h. split; [reflexivity | assumption].
Qed.

(** [AddSymbol] always returns (the name fits its block), and what it
    returns depends on the two allocations alone. *)
Lemma AddSymbol_eq (mname : string) (blk : sym_block) (v : Z) (n : string)
    (h : heap) :
  AddSymbol mname blk v n h =
  Done (match alloc h with
        | (false, h1) =>
            (false,
             match blk with
             | Held [] => Held []
             | Held (s :: entries) => Null (List.length (s :: entries))
             | Null counted => Null counted
             | Junk counted => Null counted
             end, h1)
        | (true, h1) =>
            match alloc h1 with
            | (false, h2) =>
                (false,
                 match blk with
                 | Held entries => Held entries
                 | Null counted => Junk counted
                 | Junk counted => Junk counted
                 end, h2)
            | (true, h2) =>
                (true,
                 match blk with
                 | Held entries => Held (entries ++ [qualified mname (v, n)])
                 | Null counted => Junk (S counted)
                 | Junk counted => Junk (S counted)
                 end, h2)
            end
        end).
Proof.
  unfold AddSymbol.
  destruct (alloc h) as [[|] h1]; simpl negb; cbv iota; [|reflexivity].
  destruct (alloc h1) as [[|] h2]; simpl negb; cbv iota; [|reflexivity].
  pose proof (name_written mname n
                (Z.of_nat (String.length n) +
                 (Z.of_nat (String.length mname) + 1) + 1)) as Hw.
  rewrite Z.leb_refl in Hw.
  destruct (strcpy _ mname) as [b1|]; [|discriminate].
  destruct (strcat b1 ":") as [b2|]; [|discriminate].
  rewrite Hw. reflexivity.
Qed.

(** An array that is lost is not held again. *)
Lemma add_symbols_lost (mname : string) (symbuf : list (Z * string)) :
  forall (blk : sym_block) (h : heap) (entries : list sym_table) (h' : heap),
    add_symbols mname blk symbuf h = Done (Held entries, h') ->
    exists held, blk = Held held.
Proof.
  induction symbuf as [|[v n] symbuf IH]; intros blk h entries h' H;
    simpl in H.
  - injection H as -> _. now exists entries.
  - rewrite AddSymbol_eq in H.
    destruct blk as [held|c|c]; [now exists held| |];
      exfalso;
      (destruct (alloc h) as [[|] h1];
       [destruct (alloc h1) as [[|] h2]|]);
      apply IH in H; destruct H as (held & H); discriminate.
Qed.

(** The loop over the symbols returns, whatever the allocator does. *)
Lemma add_symbols_Done (mname : string) (symbuf : list (Z * string)) :
  forall (blk : sym_block) (h : heap),
    exists blk' h', add_symbols mname blk symbuf h = Done (blk', h').
Proof.
  induction symbuf as [|[v n] symbuf IH]; intros blk h; simpl.
  - now exists blk, h.
  - rewrite AddSymbol_eq.
    destruct (alloc h) as [[|] h1]; [destruct (alloc h1) as [[|] h2]|];
      apply IH.
Qed.

(** The array that the loop holds in the end: the entries it began with,
    then the qualified entries of the answer for which both allocations
    succeeded. *)
Lemma add_symbols_entries (mname : string) (symbuf : list (Z * string)) :
  forall (held : list sym_table) (h : heap) (entries : list sym_table)
         (h' : heap),
    add_symbols mname (Held held) symbuf h = Done (Held entries, h') ->
    exists kept,
      subseq kept symbuf /\
      entries = held ++ List.map (qualified mname) kept /\
      (Forall (eq true) h -> kept = symbuf /\ Forall (eq true) h').
Proof.
  induction symbuf as [|[v n] symbuf IH]; intros held h entries h' H;
    simpl in H.
  - injection H as <- <-. exists []. split; [constructor|].
    split; [now rewrite app_nil_r | auto].
  - rewrite AddSymbol_eq in H.
    destruct (alloc h) as [[|] h1] eqn:E1.
    + destruct (alloc h1) as [[|] h2] eqn:E2.
      * destruct (IH _ _ _ _ H) as (kept & Hsub & -> & Hall).
        exists ((v, n) :: kept). split; [now constructor|].
        split; [now rewrite <- app_assoc|].
        intros Hh.
        destruct (alloc_all_true h Hh) as (x1 & Hx1 & Hh1).
        rewrite E1 in Hx1. injection Hx1 as <-.
        destruct (alloc_all_true h1 Hh1) as (x2 & Hx2 & Hh2).
        rewrite E2 in Hx2. injection Hx2 as <-.
        destruct (Hall Hh2) as [-> Hh']. auto.
      * destruct (IH _ _ _ _ H) as (kept & Hsub & -> & Hall).
        exists kept. split; [now constructor|]. split; [reflexivity|].
        intros Hh.
        destruct (alloc_all_true h Hh) as (x1 & Hx1 & Hh1).
        rewrite E1 in Hx1. injection Hx1 as <-.
        destruct (alloc_all_true h1 Hh1) as (x2 & Hx2 & Hh2).
        rewrite E2 in Hx2. discriminate.
    + destruct held as [|s held].
      * destruct (IH _ _ _ _ H) as (kept & Hsub & -> & Hall).
        exists kept. split; [now constructor|]. split; [reflexivity|].
        intros Hh.
        destruct (alloc_all_true h Hh) as (x1 & Hx1 & Hh1).
        rewrite E1 in Hx1. discriminate.
      * apply add_symbols_lost in H. destruct H as (x & H). discriminate.
Qed.

(** ** AddModule and the loop over the modules *)

Lemma grow_query_heap {A : Type} (q : Z -> qm_result A) (fuel : nat) :
  forall (b : Z) (h : heap) (r : option A) (h' : heap),
    Forall (eq true) h ->
    grow_query fuel q b h = Done (r, h') ->
    Forall (eq true) h'.
Proof.
  induction fuel as [|fuel IH]; intros b h r h' Hh H; [discriminate|].
  simpl in H. destruct (b + b >? INT_MAX); [discriminate|].
  destruct (alloc_all_true h Hh) as (h1 & Ha & Hh1).
  rewrite Ha in H. simpl in H.
  destruct (q (b + b)).
  - injection H as _ <-. exact Hh1.
  - exact (IH _ _ _ _ Hh1 H).
  - injection H as _ <-. exact Hh1.
Qed.

(** The loop returns or runs into the overflow. *)
Lemma grow_query_not_Astray {A : Type} (q : Z -> qm_result A) (fuel : nat) :
  forall (b : Z) (h : heap) (b' : bool) (h' : heap),
    grow_query fuel q b h <> Astray b' h'.
Proof.
  induction fuel as [|fuel IH]; intros b h b' h'; simpl; [discriminate|].
  destruct (b + b >? INT_MAX); [discriminate|].
  destruct (alloc h) as [ok h1]. destruct (negb ok); [discriminate|].
  destruct (q (b + b)); try discriminate. apply IH.
Qed.

(** A first answer that is an error ends the loop without a result. *)
Lemma grow_query_first_error {A : Type} (q : Z -> qm_result A) (fuel : nat)
    (seed : Z) (h : heap) :
  seed + seed <= INT_MAX ->
  q (seed + seed) = QmError ->
  exists h', grow_query (S fuel) q seed h = Done (None, h').
Proof.
  intros Hmax Hq. cbn [grow_query].
  destruct (seed + seed >? INT_MAX) eqn:E; [lia|].
  destruct (alloc h) as [[|] h1]; simpl negb; cbv iota;
    [rewrite Hq|]; now eexists.
Qed.

Lemma join_damage_intact (d1 d2 : damage) :
  join_damage d1 d2 = intact -> d1 = intact /\ d2 = intact.
Proof. destruct d1, d2; simpl; intros H; try discriminate; auto. Qed.

(** What one call of [AddModule] does to the table. *)
Lemma AddModule_table (k : kernel) (n : string) (g : globals) (h : heap)
    (b : bool) (g' : globals) (d : damage) (h' : heap) :
  have_modules g = false ->
  AddModule k n g h = Done (b, g', d, h') ->
  have_modules g' = false /\
  exists added,
    sym_array_modules g' = sym_array_modules g ++ added /\
    (b = true -> exists mp,
       added = [mp] /\ module_name mp = n /\ described k mp) /\
    (b = false ->
       d = intact /\
       (added = [] \/
        exists mp, added = [mp] /\ module_name mp = n /\ sym_array mp = [])).
Proof.
  intros Hg. unfold AddModule. rewrite Hg.
  destruct (qm_info k n) as [info|] eqn:Ei.
  2:{ intros H; injection H as <- <- <- _. split; [exact Hg|].
      exists []. rewrite app_nil_r.
      split; [reflexivity|]. split; [discriminate | auto]. }
  destruct (alloc h) as [[|] h1]; simpl negb; cbv iota.
  2:{ intros H; injection H as <- <- <- _. split; [exact Hg|].
      exists []. rewrite app_nil_r.
      split; [reflexivity|]. split; [discriminate | auto]. }
  destruct (grow_query LOOP_FUEL (qm_symbols k n) 128 h1)
    as [[[symbuf|] h2]| |] eqn:Eq; try discriminate.
  - apply grow_query_Some in Eq. destruct Eq as (sz & Hsz).
    destruct (add_symbols n (Held []) symbuf h2)
      as [[[entries|c|c] h3]| |]; try discriminate;
      intros H; injection H as <- <- <- _; (split; [reflexivity|]);
      (eexists [_]; split; [reflexivity|]; split; [|discriminate]);
      intros _; eexists; (split; [reflexivity|]); (split; [reflexivity|]);
      (split; [exact Ei | now exists sz, symbuf]).
  - intros H; injection H as <- <- <- _. split; [reflexivity|].
    eexists [_]. split; [reflexivity|]. split; [discriminate|].
    intros _. split; [reflexivity|]. right. eexists.
    split; [reflexivity|]. split; reflexivity.
Qed.

Lemma AddModule_not_Astray (k : kernel) (n : string) (g : globals)
    (h : heap) (b : bool) (h' : heap) :
  AddModule k n g h <> Astray b h'.
Proof.
  unfold AddModule. destruct (have_modules g); [discriminate|].
  destruct (qm_info k n) as [info|]; [|discriminate].
  destruct (alloc h) as [ok h1]. destruct (negb ok); [discriminate|].
  destruct (grow_query LOOP_FUEL (qm_symbols k n) 128 h1)
    as [[[symbuf|] h2]| |] eqn:Eq; try discriminate.
  - destruct (add_symbols_Done n symbuf (Held []) h2) as (blk & h3 & ->).
    destruct blk; discriminate.
  - now apply grow_query_not_Astray in Eq.
Qed.

(** In the entries that a call counts, [module_info.addr] is what the
    memory of the table held at their place. *)
Lemma AddModule_stale (k : kernel) (n : string) (g : globals) (h : heap)
    (b : bool) (g' : globals) (d : damage) (h' : heap) :
  have_modules g = false ->
  (forall i mp, nth_error (sym_array_modules g) i = Some mp ->
                module_info_addr mp = stale_addr k i) ->
  AddModule k n g h = Done (b, g', d, h') ->
  forall i mp, nth_error (sym_array_modules g') i = Some mp ->
               module_info_addr mp = stale_addr k i.
Proof.
  intros Hg Hall. unfold AddModule. rewrite Hg.
  assert (Hsnoc : forall m,
    module_info_addr m = stale_addr k (List.length (sym_array_modules g)) ->
    forall i mp, nth_error (sym_array_modules g ++ [m]) i = Some mp ->
                 module_info_addr mp = stale_addr k i).
  { intros m Hm i mp Hi.
    destruct (Nat.lt_ge_cases i (List.length (sym_array_modules g)))
      as [Hlt|Hge].
    - rewrite nth_error_app1 in Hi by exact Hlt. now apply Hall.
    - rewrite nth_error_app2 in Hi by exact Hge.
      destruct (i - List.length (sym_array_modules g))%nat as [|j] eqn:Ej.
      + simpl in Hi. injection Hi as <-.
        replace i with (List.length (sym_array_modules g)) by lia.
        exact Hm.
      + simpl in Hi. destruct j; discriminate. }
  destruct (qm_info k n) as [info|].
  2:{ intros H; injection H as _ <- _ _. exact Hall. }
  destruct (alloc h) as [[|] h1]; simpl negb; cbv iota.
  2:{ intros H; injection H as _ <- _ _. exact Hall. }
  destruct (grow_query LOOP_FUEL (qm_symbols k n) 128 h1)
    as [[[symbuf|] h2]| |]; try discriminate.
  - destruct (add_symbols n (Held []) symbuf h2)
      as [[[entries|c|c] h3]| |]; try discriminate;
      intros H; injection H as _ <- _ _; cbn [sym_array_modules];
      now apply Hsnoc.
  - intros H; injection H as _ <- _ _. cbn [sym_array_modules].
    now apply Hsnoc.
Qed.

(** The entry of a call that returns 1 with the array held. *)
Lemma AddModule_entries (k : kernel) (n : string) (g : globals) (h : heap)
    (g' : globals) (h' : heap) :
  have_modules g = false ->
  AddModule k n g h = Done (true, g', intact, h') ->
  exists mp,
    sym_array_modules g' = sym_array_modules g ++ [mp] /\
    module_name mp = n /\
    attached k (Forall (eq true) h) mp /\
    (Forall (eq true) h -> Forall (eq true) h').
Proof.
  intros Hg. unfold AddModule. rewrite Hg.
  destruct (qm_info k n) as [info|]; [|discriminate].
  destruct (alloc h) as [ok h1] eqn:Ea.
  destruct ok; simpl negb; cbv iota; [|discriminate].
  destruct (grow_query LOOP_FUEL (qm_symbols k n) 128 h1)
    as [[[symbuf|] h2]| |] eqn:Eq; try discriminate.
  destruct (add_symbols n (Held []) symbuf h2)
    as [[[entries|c|c] h3]| |] eqn:Es; try discriminate.
  intros H; injection H as <- <-.
  destruct (add_symbols_entries _ _ _ _ _ _ Es) as (kept & Hsub & Hk & Hall).
  simpl in Hk.
  assert (Hheap : Forall (eq true) h ->
                  Forall (eq true) h1 /\ Forall (eq true) h2).
  { intros Hh. destruct (alloc_all_true h Hh) as (x & Hx & Hh1).
    rewrite Ea in Hx. injection Hx as <-. split; [exact Hh1|].
    exact (grow_query_heap _ _ _ _ _ _ Hh1 Eq). }
  eexists. split; [reflexivity|]. split; [reflexivity|]. split.
  - destruct (grow_query_Some _ _ _ _ _ _ Eq) as (sz & Hsz).
    exists sz, symbuf, kept. cbn [module_name sym_array].
    split; [exact Hsz|]. split; [exact Hsub|]. split; [exact Hk|].
    intros Hh. now apply Hall, Hheap.
  - intros Hh. now apply Hall, Hheap.
Qed.

(** What the loop over the module names does to the table. *)
Lemma add_modules_table (k : kernel) (names : list string) :
  forall (g : globals) (d : damage) (h : heap) (b : bool) (g' : globals)
         (d' : damage) (h' : heap),
    have_modules g = false ->
    add_modules k names g d h = Done (b, g', d', h') ->
    have_modules g' = false /\
    (d' = intact -> d = intact) /\
    exists added,
      sym_array_modules g' = sym_array_modules g ++ added /\
      (b = true ->
         List.map module_name added = names /\ Forall (described k) added) /\
      (b = false ->
         exists post, names = List.map module_name added ++ post).
Proof.
  induction names as [|n names IH]; intros g d h b g' d' h' Hg H;
    simpl in H.
  - injection H as <- <- <- _. split; [exact Hg|]. split; [auto|].
    exists []. rewrite app_nil_r. repeat split; [constructor | discriminate].
  - destruct (AddModule k n g h) as [[[[b1 g1] d1] h1]| |] eqn:E;
      try discriminate.
    destruct (AddModule_table k n g h b1 g1 d1 h1 Hg E)
      as (Hg1 & added1 & Ht1 & Hok & Hko).
    destruct b1.
    + destruct (Hok eq_refl) as (mp & -> & Hn & Hd).
      destruct (IH g1 _ h1 b g' d' h' Hg1 H)
        as (Hg' & Hd' & added & Ht & Hb1 & Hb0).
      split; [exact Hg'|].
      split; [intros Hi; now apply Hd', join_damage_intact in Hi|].
      exists (mp :: added).
      rewrite Ht, Ht1, <- app_assoc. repeat split.
      * simpl. destruct (Hb1 H0) as [-> _]. now rewrite Hn.
      * constructor; [exact Hd | now apply Hb1].
      * intros Hb. destruct (Hb0 Hb) as (post & ->).
        exists post. simpl. now rewrite Hn.
    + injection H as <- <- <- _. split; [exact Hg1|].
      split; [intros Hi; now apply join_damage_intact in Hi|].
      exists added1. repeat split; try discriminate; auto.
      intros _. destruct (Hko eq_refl) as [_ [->|(mp & -> & Hn & _)]].
      * now exists (n :: names).
      * exists names. simpl. now rewrite Hn.
Qed.

Lemma add_modules_not_Astray (k : kernel) (names : list string) :
  forall (g : globals) (d : damage) (h : heap) (b : bool) (h' : heap),
    add_modules k names g d h <> Astray b h'.
Proof.
  induction names as [|n names IH]; intros g d h b h'; simpl;
    [discriminate|].
  destruct (AddModule k n g h) as [[[[[|] g1] d1] h1]| |] eqn:E;
    try discriminate.
  - apply IH.
  - now apply AddModule_not_Astray in E.
Qed.

Lemma add_modules_stale (k : kernel) (names : list string) :
  forall (g : globals) (d : damage) (h : heap) (b : bool) (g' : globals)
         (d' : damage) (h' : heap),
    have_modules g = false ->
    (forall i mp, nth_error (sym_array_modules g) i = Some mp ->
                  module_info_addr mp = stale_addr k i) ->
    add_modules k names g d h = Done (b, g', d', h') ->
    forall i mp, nth_error (sym_array_modules g') i = Some mp ->
                 module_info_addr mp = stale_addr k i.
Proof.
  induction names as [|n names IH]; intros g d h b g' d' h' Hg Hall H;
    simpl in H.
  - injection H as _ <- _ _. exact Hall.
  - destruct (AddModule k n g h) as [[[[b1 g1] d1] h1]| |] eqn:E;
      try discriminate.
    pose proof (AddModule_stale k n g h b1 g1 d1 h1 Hg Hall E) as Hall1.
    destruct (AddModule_table k n g h b1 g1 d1 h1 Hg E) as (Hg1 & _).
    destruct b1.
    + exact (IH g1 _ h1 b g' d' h' Hg1 Hall1 H).
    + injection H as _ <- _ _. exact Hall1.
Qed.

Lemma attached_weaken (k : kernel) (P Q : Prop) (mp : Module_) :
  (Q -> P) -> attached k P mp -> attached k Q mp.
Proof.
  intros HPQ (sz & symbuf & kept & H1 & H2 & H3 & H4).
  exists sz, symbuf, kept. repeat split; auto.
Qed.

Lemma add_modules_entries (k : kernel) (names : list string) :
  forall (g : globals) (h : heap) (g' : globals) (h' : heap),
    have_modules g = false ->
    add_modules k names g intact h = Done (true, g', intact, h') ->
    exists added,
      sym_array_modules g' = sym_array_modules g ++ added /\
      Forall (attached k (Forall (eq true) h)) added /\
      (Forall (eq true) h -> Forall (eq true) h').
Proof.
  induction names as [|n names IH]; intros g h g' h' Hg H; simpl in H.
  - injection H as <- <-. exists []. rewrite app_nil_r.
    split; [reflexivity|]. split; [constructor | auto].
  - destruct (AddModule k n g h) as [[[[[|] g1] d1] h1]| |] eqn:E;
      try discriminate.
    destruct (AddModule_table k n g h true g1 d1 h1 Hg E) as (Hg1 & _).
    destruct (add_modules_table k names g1 _ h1 true g' intact h' Hg1 H)
      as (_ & Hd1 & _).
    specialize (Hd1 eq_refl). simpl in Hd1. subst d1.
    destruct (AddModule_entries k n g h g1 h1 Hg E)
      as (mp & Ht1 & _ & Hat & Hh1).
    destruct (IH g1 h1 g' h' Hg1 H) as (added & Ht & Hall & Hh').
    exists (mp :: added). split; [|split].
    + rewrite Ht, Ht1, <- app_assoc. reflexivity.
    + constructor; [exact Hat|].
      eapply Forall_impl; [|exact Hall].
      intros m. apply attached_weaken. exact Hh1.
    + intros Hh. apply Hh', Hh1, Hh.
Qed.

Lemma map_sort_module_names (mods : list Module_) :
  List.map module_name (List.map sort_module mods) =
  List.map module_name mods.
Proof.
  rewrite map_map. apply map_ext. intros mp.
  apply (sort_module_name mp).
Qed.

Lemma described_sort_module (k : kernel) (mp : Module_) :
  described k mp -> described k (sort_module mp).
Proof.
  unfold described. destruct (sort_module_name mp) as [-> ->]. auto.
Qed.

(** What [InitMsyms] went through when it returns 1 with a table. *)
Lemma InitMsyms_true (k : kernel) (g : globals) (h : heap)
    (g' : globals) (h' : heap) :
  InitMsyms k g h = Done (true, g', h') ->
  exists names h1 h2 h3 g1,
    grow_query LOOP_FUEL (qm_modules k) 32 h = Done (Some names, h1) /\
    alloc h1 = (true, h2) /\ alloc h2 = (true, h3) /\
    add_modules k names no_modules intact h3 = Done (true, g1, intact, h') /\
    g' = {| sym_array_modules := List.map sort_module (sym_array_modules g1);
            have_modules := true |}.
Proof.
  unfold InitMsyms.
  destruct (grow_query LOOP_FUEL (qm_modules k) 32 h)
    as [[[names|] h1]| |] eqn:E0; try discriminate.
  destruct (Z.of_nat (List.length names) <=? 0); [discriminate|].
  destruct (alloc h1) as [[|] h2] eqn:E1; simpl negb; cbv iota;
    [|discriminate].
  destruct (alloc h2) as [[|] h3] eqn:E2; simpl negb; cbv iota;
    [|discriminate].
  change (FreeModules g) with no_modules.
  destruct (add_modules k names no_modules intact h3)
    as [[[[[|] g1] [|[|]]] h4]| |] eqn:E3; try discriminate.
  intros H; injection H as <- <-.
  exists names, h1, h2, h3, g1. repeat split; auto.
Qed.

(** The loop over the module names ends at the first [AddModule] that
    returns 0. *)
Lemma add_modules_stops (k : kernel) (pre : list string) (n : string)
    (post : list string) :
  forall (g : globals) (d : damage) (h : heap) (g1 : globals) (d1 : damage)
         (h1 : heap) (g2 : globals) (d2 : damage) (h2 : heap),
    add_modules k pre g d h = Done (true, g1, d1, h1) ->
    AddModule k n g1 h1 = Done (false, g2, d2, h2) ->
    add_modules k (pre ++ n :: post) g d h =
      Done (false, g2, join_damage d1 d2, h2).
Proof.
  induction pre as [|m pre IH]; intros g d h g1 d1 h1 g2 d2 h2 Hpre Hn;
    simpl in *.
  - injection Hpre as <- <- <-. now rewrite Hn.
  - destruct (AddModule k m g h) as [[[[[|] g0] d0] h0]| |];
      try discriminate.
    now apply (IH g0 _ h0 g1 d1 h1).
Qed.

(** A result that a table gives stays when modules are put behind it. *)
Lemma lookup_modules_app (a : Z) (sym : symbol) (more : list Module_)
    (mods : list Module_) :
  forall (n : string) (r : symbol),
    lookup_modules a sym mods = (Some n, r) ->
    lookup_modules a sym (mods ++ more) = (Some n, r).
Proof.
  induction mods as [|mp mods IH]; intros n r H; simpl in *;
    [discriminate|].
  destruct (lookup_in_module a sym mp) as [[n1 r1]|]; [exact H|].
  now apply IH.
Qed.

Lemma LookupModuleSymbol_more (a : Z) (sym : symbol) (g1 g2 : globals)
    (more : list Module_) (n : string) (r : symbol) :
  sym_array_modules g2 = sym_array_modules g1 ++ more ->
  LookupModuleSymbol a sym g1 = (Some n, r) ->
  LookupModuleSymbol a sym g2 = (Some n, r).
Proof.
  unfold LookupModuleSymbol, num_modules. intros ->.
  destruct (sym_array_modules g1) as [|mp mods] eqn:E; [discriminate|].
  cbn [List.length app].
  destruct (Z.of_nat (S (List.length mods)) =? 0) eqn:E1;
    [apply Z.eqb_eq in E1; lia|].
  destruct (Z.of_nat (S (List.length (mods ++ more))) =? 0) eqn:E2;
    [apply Z.eqb_eq in E2; lia|].
  intros H. change (mp :: mods ++ more) with ((mp :: mods) ++ more).
  now apply lookup_modules_app.
Qed.

(** C2, as amended.  [InitMsyms] returns 1 only when, for every listed
    module, the kernel described it and answered a query for its symbols; a
    call of [AddModule] for a module that the kernel does not describe, or
    whose symbols it refuses, returns 0.  When the call for a listed module
    returns 0, the calls before it having returned 1, [InitMsyms] returns 0
    and does not clear the table: it leaves it as that call left it, with
    [have_modules] 0, with every module attached before and, when the
    failing call had counted its module, with that module without symbols;
    and [LookupModuleSymbol] still gives every result that the modules
    attached before gave. *)
Theorem InitMsyms_fail_fast (k : kernel) (g : globals) (h : heap) :
  (forall g' h',
     InitMsyms k g h = Done (true, g', h') ->
     have_modules g' = true /\
     List.map module_name (sym_array_modules g') = listed k h /\
     Forall (described k) (sym_array_modules g')) /\
  (forall h',
     InitMsyms k g h = Astray true h' ->
     exists mods,
       List.map module_name mods = listed k h /\ Forall (described k) mods) /\
  (forall n g1 h1,
     have_modules g1 = false ->
     qm_info k n = None \/ (forall sz, qm_symbols k n sz = QmError) ->
     exists g2 h2, AddModule k n g1 h1 = Done (false, g2, intact, h2)) /\
  (forall pre n post h0 h1 h2 g1 h3 g2 d h4,
     grow_query LOOP_FUEL (qm_modules k) 32 h =
       Done (Some (pre ++ n :: post), h0) ->
     alloc h0 = (true, h1) ->
     alloc h1 = (true, h2) ->
     add_modules k pre no_modules intact h2 = Done (true, g1, intact, h3) ->
     AddModule k n g1 h3 = Done (false, g2, d, h4) ->
     InitMsyms k g h = Done (false, g2, h4) /\
     have_modules g2 = false /\
     (exists added,
        sym_array_modules g2 = sym_array_modules g1 ++ added /\
        (added = [] \/
         exists mp, added = [mp] /\ module_name mp = n /\ sym_array mp = [])) /\
     forall a sym nm r,
       LookupModuleSymbol a sym g1 = (Some nm, r) ->
       LookupModuleSymbol a sym g2 = (Some nm, r)).
Proof.
  split; [|split; [|split]].
  - intros g' h' H.
    destruct (InitMsyms_true k g h g' h' H)
      as (names & h1 & h2 & h3 & g1 & Eq & _ & _ & Em & ->).
    destruct (add_modules_table k names no_modules intact h3 true g1 intact
                h' eq_refl Em) as (_ & _ & added & Ht & Hok & _).
    simpl in Ht. destruct (Hok eq_refl) as [Hn Hd].
    cbn [have_modules sym_array_modules]. rewrite Ht.
    unfold listed. rewrite Eq. split; [reflexivity|]. split.
    + rewrite map_sort_module_names. exact Hn.
    + apply Forall_map. eapply Forall_impl; [|exact Hd].
      intros mp. apply described_sort_module.
  - intros h'. unfold InitMsyms, listed.
    destruct (grow_query LOOP_FUEL (qm_modules k) 32 h)
      as [[[names|] h1]| |] eqn:Eq; try discriminate.
    2:{ intros H. now apply grow_query_not_Astray in Eq. }
    destruct (Z.of_nat (List.length names) <=? 0); [discriminate|].
    destruct (alloc h1) as [[|] h2]; simpl negb; cbv iota; [|discriminate].
    destruct (alloc h2) as [[|] h3]; simpl negb; cbv iota; [|discriminate].
    destruct (add_modules k names (FreeModules g) intact h3)
      as [[[[[|] g1] [|[|]]] h4]| |] eqn:Em; try discriminate.
    + intros _.
      destruct (add_modules_table k names (FreeModules g) intact h3 true g1
                  _ h4 eq_refl Em) as (_ & _ & added & _ & Hok & _).
      exists added. now apply Hok.
    + intros _. now apply add_modules_not_Astray in Em.
  - intros n g1 h1 Hg Hq. unfold AddModule. rewrite Hg.
    destruct (qm_info k n) as [info|] eqn:Ei; [|now eexists _, _].
    destruct Hq as [Hq|Hq]; [discriminate|].
    destruct (alloc h1) as [[|] h2]; simpl negb; cbv iota;
      [|now eexists _, _].
    destruct (grow_query_first_error (qm_symbols k n) 31 128 h2
                ltac:(vm_compute; discriminate) (Hq _)) as (h3 & E).
    change (S 31) with LOOP_FUEL in E. rewrite E. now eexists _, _.
  - intros pre n post h0 h1 h2 g1 h3 g2 d h4 Eq E1 E2 Hpre Hn.
    destruct (add_modules_table k pre no_modules intact h2 true g1 intact h3
                eq_refl Hpre) as (Hg1 & _).
    destruct (AddModule_table k n g1 h3 false g2 d h4 Hg1 Hn)
      as (Hg2 & added & Ht & _ & Hko).
    destruct (Hko eq_refl) as [-> Hadded].
    split; [|split; [exact Hg2|split; [exists added; now split|]]].
    + unfold InitMsyms. rewrite Eq.
      destruct (Z.of_nat (List.length (pre ++ n :: post)) <=? 0) eqn:E.
      { apply Z.leb_le in E. rewrite length_app in E. simpl in E. lia. }
      rewrite E1. simpl negb. cbv iota. rewrite E2. simpl negb. cbv iota.
      change (FreeModules g) with no_modules.
      now rewrite (add_modules_stops k pre n post _ _ _ _ _ _ _ _ _ Hpre Hn).
    + intros a sym nm r. now apply LookupModuleSymbol_more with (more := added).
Qed.

Lemma InitMsyms_fail_fast_witness :
  (have_modules usb_table = true /\
   List.map module_name (sym_array_modules usb_table) =
     listed usb_kernel [] /\
   Forall (described usb_kernel) (sym_array_modules usb_table)) /\
  (exists g2 h2,
     AddModule mute_kernel "mute" gone_table [] =
       Done (false, g2, intact, h2)) /\
  InitMsyms mute_kernel no_modules [] = Done (false, mute_table, []) /\
  have_modules mute_table = false /\
  (exists added,
     sym_array_modules mute_table = sym_array_modules gone_table ++ added /\
     (added = [] \/
      exists mp,
        added = [mp] /\ module_name mp = "mute"%string /\ sym_array mp = [])) /\
  forall a sym nm r,
    LookupModuleSymbol a sym gone_table = (Some nm, r) ->
    LookupModuleSymbol a sym mute_table = (Some nm, r).
Proof.
  destruct (InitMsyms_fail_fast usb_kernel no_modules [])
    as (H1 & _ & _ & _).
  destruct (InitMsyms_fail_fast mute_kernel no_modules [])
    as (_ & _ & H3 & H4).
  split; [apply (H1 usb_table []); reflexivity|].
  split; [apply H3; [reflexivity | right; reflexivity]|].
  apply (H4 ["usb_core"%string] "mute"%string [] [] [] [] gone_table []
            mute_table intact []); reflexivity.
Defined.

(** C2, as stated, fails: [gone_kernel] lists [usb_core] and a module that
    is gone when its description is asked for.  [InitMsyms] returns 0 and
    leaves [usb_core] in the table, its symbols in the order the kernel gave
    them, [probe] before [init]; [LookupModuleSymbol], which tests
    [num_modules] alone, scans them and returns a name for 0x500, where an
    empty table gives none. *)
Lemma failed_build_is_looked_up :
  qm_info gone_kernel "gone" = None /\
  InitMsyms gone_kernel no_modules [] = Done (false, gone_table, []) /\
  num_modules gone_table = 1 /\
  List.map sym_array (sym_array_modules gone_table) =
    [[usb_probe; usb_init]] /\
  LookupModuleSymbol 0x500 stale gone_table =
    (Some "usb_core:probe"%string,
     {| size := 0xFFFFFE00; offset := 0xFFFFF300 |}) /\
  LookupModuleSymbol 0x500 stale no_modules =
    (None, {| size := 0; offset := 0 |}).
Proof. repeat split; reflexivity. Qed.

(** What [AddSymbol] returns is dropped (l.472): when the allocation of the
    name of [probe] fails (the ninth allocation of the run), [InitMsyms]
    still returns 1, with a table that lacks [probe]. *)
Example AddSymbol_failure_is_dropped :
  InitMsyms usb_kernel no_modules
    [true; true; true; true; true; true; true; true; false] =
  Done (true,
        {| sym_array_modules :=
             [{| sym_array := [usb_init]; module_name := "usb_core";
                 module := {| addr := 0x1000; msize := 1 |};
                 module_info_addr := 0 |}];
           have_modules := true |},
        []).
Proof. reflexivity. Qed.

(** When it is the array of [usb_core] that cannot be grown for [init] (the
    tenth allocation of the run), [AddSymbol] leaves [sym_array] null with
    [probe] still counted; [InitMsyms] returns 1 all the same.  With a third
    symbol, two entries are counted when the array is lost, and the null
    array goes to [qsort]. *)
Example lost_array_is_counted :
  AddSymbol "usb_core" (Held [usb_probe]) 0x1000 "init" [false] =
    Done (false, Null 1, []) /\
  InitMsyms usb_kernel no_modules
    [true; true; true; true; true; true; true; true; true; false] =
    Astray true [] /\
  InitMsyms
    (sample_kernel ["usb_core"%string]
       [("usb_core"%string,
         ({| addr := 0x1000; msize := 1 |},
          [(0x1200, "probe"%string); (0x1000, "init"%string);
           (0x1400, "exit"%string)]))])
    no_modules
    [true; true; true; true; true; true; true; true; true; true; true;
     false] =
    Undefined.
Proof. repeat split; reflexivity. Qed.

Lemma InitMsyms_AddModule_fails (k : kernel) (g : globals) (h h0 : heap)
    (pre : list string) (n : string) (post : list string)
    (g1 : globals) (h1 : heap) (g2 : globals) (h2 : heap) :
  grow_query LOOP_FUEL (qm_modules k) 32 h =
    Done (Some (pre ++ n :: post), true :: true :: h0) ->
  add_modules k pre no_modules intact h0 = Done (true, g1, intact, h1) ->
  AddModule k n g1 h1 = Done (false, g2, intact, h2) ->
  InitMsyms k g h = Done (false, g2, h2).
Proof.
  intros Hq Hpre Hn. unfold InitMsyms. rewrite Hq.
  destruct (Z.of_nat (List.length (pre ++ n :: post)) <=? 0) eqn:E.
  - apply Z.leb_le in E. rewrite length_app in E. simpl in E. lia.
  - cbn [alloc negb]. change (FreeModules g) with no_modules.
    now rewrite (add_modules_stops k pre n post _ _ _ _ _ _ _ _ _ Hpre Hn).
Qed.


(** * Further properties of the code *)

(** ** symsort *)

(** X1: [symsort] is a comparison function as [qsort] needs one: it returns
    -1, 0 or 1, swapping the arguments negates the result, 0 is returned
    exactly on equal addresses, and "not after" is transitive. *)
Theorem symsort_comparator (x y z : sym_table) :
  (symsort x y = -1 \/ symsort x y = 0 \/ symsort x y = 1) /\
  symsort x y = - symsort y x /\
  (symsort x y = 0 <-> value x = value y) /\
  (symsort x y <= 0 -> symsort y z <= 0 -> symsort x z <= 0).
Proof.
  unfold symsort.
  destruct (value x <? value y) eqn:Exy, (value x =? value y) eqn:Exy',
    (value y <? value x) eqn:Eyx, (value y =? value x) eqn:Eyx',
    (value y <? value z) eqn:Eyz, (value y =? value z) eqn:Eyz',
    (value x <? value z) eqn:Exz, (value x =? value z) eqn:Exz';
    repeat split; intros; try lia.
Qed.

(** ** What the build puts in the table *)

(** X4: the block that [AddSymbol] allocates for the name of an entry,
    [tmp + 1] bytes with [tmp = strlen(symbol) + strlen(mp->name) + 1],
    holds the module name, the colon, the symbol name and the terminator
    exactly.  The three writes stay inside the block and fill it; in a block
    one byte shorter the last write would pass the end; and no call of
    [AddSymbol] writes outside the block. *)
Theorem AddSymbol_name_fits (mname symbol_ : string) (blk : sym_block)
    (v : Z) (h : heap) :
  (exists b1 b2 b3,
     strcpy (memset_zero (Z.of_nat (String.length symbol_) +
                          (Z.of_nat (String.length mname) + 1) + 1)) mname =
       Some b1 /\
     strcat b1 ":" = Some b2 /\
     strcat b2 symbol_ = Some b3 /\
     text b3 = (mname ++ ":" ++ symbol_)%string /\
     Z.of_nat (String.length (text b3)) + 1 = bytes b3) /\
  (forall b1 b2,
     strcpy (memset_zero (Z.of_nat (String.length symbol_) +
                          (Z.of_nat (String.length mname) + 1))) mname =
       Some b1 ->
     strcat b1 ":" = Some b2 ->
     strcat b2 symbol_ = None) /\
  AddSymbol mname blk v symbol_ h <> Undefined.
Proof.
  split; [|split].
  - pose proof (name_written mname symbol_
                  (Z.of_nat (String.length symbol_) +
                   (Z.of_nat (String.length mname) + 1) + 1)) as Hw.
    rewrite Z.leb_refl in Hw.
    destruct (strcpy _ mname) as [b1|]; [|discriminate].
    destruct (strcat b1 ":") as [b2|] eqn:E2; [|discriminate].
    eexists b1, b2, _. split; [reflexivity|]. split; [exact E2|].
    split; [exact Hw|]. cbn [text bytes]. split; [reflexivity|].
    rewrite !string_length_append. simpl. lia.
  - intros b1 b2 H1 H2.
    pose proof (name_written mname symbol_
                  (Z.of_nat (String.length symbol_) +
                   (Z.of_nat (String.length mname) + 1))) as Hw.
    rewrite H1, H2 in Hw. rewrite Hw.
    destruct (_ <=? _) eqn:E; [apply Z.leb_le in E; lia | reflexivity].
  - rewrite AddSymbol_eq. discriminate.
Qed.

Lemma InitMsyms_entries (k : kernel) (g : globals) (h : heap)
    (g' : globals) (h' : heap) :
  InitMsyms k g h = Done (true, g', h') ->
  exists unsorted,
    sym_array_modules g' = List.map sort_module unsorted /\
    Forall (attached k (Forall (eq true) h)) unsorted.
Proof.
  intros H.
  destruct (InitMsyms_true k g h g' h' H)
    as (names & h1 & h2 & h3 & g1 & Eq & E2 & E3 & Em & ->).
  destruct (add_modules_entries k names no_modules h3 g1 h' eq_refl Em)
    as (added & Ht & Hall & _).
  simpl in Ht. exists added. split; [simpl; now rewrite Ht|].
  eapply Forall_impl; [|exact Hall].
  intros m. apply attached_weaken. intros Hh.
  pose proof (grow_query_heap _ _ _ _ _ _ Hh Eq) as Hh1.
  destruct (alloc_all_true h1 Hh1) as (x2 & Hx2 & Hh2).
  rewrite E2 in Hx2. injection Hx2 as <-.
  destruct (alloc_all_true h2 Hh2) as (x3 & Hx3 & Hh3).
  rewrite E3 in Hx3. now injection Hx3 as <-.
Qed.

Lemma sort_module_perm (mp : Module_) :
  Permutation (sym_array mp) (sym_array (sort_module mp)).
Proof.
  unfold sort_module. destruct (num_syms mp <? 2); [reflexivity|].
  simpl. apply qsort_perm.
Qed.

(** X2: in a table that [InitMsyms] built returning 1 with every symbol
    array held (no [realloc] of an array that holds entries failed; the
    other allocations of [AddSymbol] may fail), the entries of every module
    are, up to the order, entries the kernel gave in answer to a query for
    that module's symbols, each taken at most once and each stored as the
    address with the name ["<module>:<symbol>"], the prefix put on once. *)
Theorem InitMsyms_names (k : kernel) (g : globals) (h : heap)
    (g' : globals) (h' : heap) (mp : Module_) :
  InitMsyms k g h = Done (true, g', h') ->
  In mp (sym_array_modules g') ->
  exists (sz : Z) (symbuf kept : list (Z * string)),
    qm_symbols k (module_name mp) sz = QmOk symbuf /\
    subseq kept symbuf /\
    Permutation
      (List.map (fun p => mk_sym (fst p)
                            (module_name mp ++ ":" ++ snd p)%string) kept)
      (sym_array mp).
Proof.
  intros H Hin.
  destruct (InitMsyms_entries k g h g' h' H) as (unsorted & Ht & Hall).
  rewrite Ht in Hin. apply in_map_iff in Hin. destruct Hin as (m & <- & Hm).
  rewrite Forall_forall in Hall.
  destruct (Hall m Hm) as (sz & symbuf & kept & Hq & Hsub & Hk & _).
  destruct (sort_module_name m) as [Hn _]. rewrite Hn.
  exists sz, symbuf, kept. split; [exact Hq|]. split; [exact Hsub|].
  change (fun p : Z * string =>
            mk_sym (fst p) (module_name m ++ ":" ++ snd p)%string)
    with (qualified (module_name m)).
  rewrite <- Hk. apply sort_module_perm.
Qed.

Lemma InitMsyms_names_witness :
  exists (sz : Z) (symbuf kept : list (Z * string)),
    qm_symbols usb_kernel "usb_core" sz = QmOk symbuf /\
    subseq kept symbuf /\
    Permutation
      (List.map (fun p => mk_sym (fst p) ("usb_core" ++ ":" ++ snd p)%string)
                kept)
      [usb_init; usb_probe].
Proof.
  apply (InitMsyms_names usb_kernel no_modules [] usb_table [] usb_entry).
  - reflexivity.
  - left. reflexivity.
Defined.

(** X3: when no allocation fails, a table that [InitMsyms] built returning 1
    holds, for every module, all the entries of an answer of the kernel for
    that module's symbols, each once, qualified, and nothing else: the build
    loses and doubles nothing, whatever table was there before. *)
Theorem InitMsyms_complete (k : kernel) (g : globals) (h : heap)
    (g' : globals) (h' : heap) (mp : Module_) :
  Forall (eq true) h ->
  InitMsyms k g h = Done (true, g', h') ->
  In mp (sym_array_modules g') ->
  exists (sz : Z) (symbuf : list (Z * string)),
    qm_symbols k (module_name mp) sz = QmOk symbuf /\
    Permutation
      (List.map (fun p => mk_sym (fst p)
                            (module_name mp ++ ":" ++ snd p)%string) symbuf)
      (sym_array mp).
Proof.
  intros Hh H Hin.
  destruct (InitMsyms_entries k g h g' h' H) as (unsorted & Ht & Hall).
  rewrite Ht in Hin. apply in_map_iff in Hin. destruct Hin as (m & <- & Hm).
  rewrite Forall_forall in Hall.
  destruct (Hall m Hm) as (sz & symbuf & kept & Hq & _ & Hk & Hc).
  destruct (sort_module_name m) as [Hn _]. rewrite Hn.
  exists sz, symbuf. split; [exact Hq|].
  change (fun p : Z * string =>
            mk_sym (fst p) (module_name m ++ ":" ++ snd p)%string)
    with (qualified (module_name m)).
  rewrite <- (Hc Hh), <- Hk. apply sort_module_perm.
Qed.

Lemma InitMsyms_complete_witness :
  exists (sz : Z) (symbuf : list (Z * string)),
    qm_symbols usb_kernel "usb_core" sz = QmOk symbuf /\
    Permutation
      (List.map (fun p => mk_sym (fst p) ("usb_core" ++ ":" ++ snd p)%string)
                symbuf)
      [usb_init; usb_probe].
Proof.
  apply (InitMsyms_complete usb_kernel usb_table [true; true] usb_table []
           usb_entry).
  - repeat constructor.
  - reflexivity.
  - left. reflexivity.
Defined.

(** ** What the lookup returns *)

Lemma to_ulong_add_sub (a b : Z) :
  to_ulong (b + to_ulong (a - b)) = to_ulong a.
Proof.
  unfold to_ulong. rewrite Z.add_mod_idemp_r by (rewrite ULONG_MOD_eq; lia).
  f_equal. ring.
Qed.

Lemma scan_syms_named (v : Z) (sym : symbol) (rest : list sym_table) :
  forall (last : sym_table) (n : string) (r : symbol),
    scan_syms v sym last rest = Some (n, r) ->
    exists s, In s (last :: rest) /\ n = name s /\
              offset r = to_ulong (v - value s).
Proof.
  induction rest as [|cur rest IH]; intros last n r H; [discriminate|].
  simpl in H. destruct (value cur >? v).
  - injection H as <- <-. exists last. repeat split. now left.
  - destruct (IH cur n r H) as (s & Hin & Hn & Ho).
    exists s. repeat split; auto. now right.
Qed.

Lemma last_In (s0 : sym_table) (rest : list sym_table) :
  In (List.last rest s0) (s0 :: rest).
Proof.
  assert (H : rest = [] \/ In (List.last rest s0) rest).
  { induction rest as [|x rest IH]; [now left|]. right.
    destruct IH as [->|IH]; [now left|].
    destruct rest as [|y rest]; [contradiction|]. right. exact IH. }
  destruct H as [->|H]; [now left | now right].
Qed.

Lemma lookup_in_module_named (v : Z) (sym : symbol) (mp : Module_)
    (n : string) (r : symbol) :
  lookup_in_module v sym mp = Some (n, r) ->
  (exists s, In s (sym_array mp) /\ n = name s /\
             to_ulong (value s + offset r) = to_ulong v) \/
  (sym_array mp = [] /\ n = module_name mp /\
   to_ulong (module_info_addr mp + offset r) = to_ulong v).
Proof.
  unfold lookup_in_module.
  destruct (sym_array mp) as [|s0 rest].
  - destruct ((v >=? module_info_addr mp) && (v <=? module_end mp));
      [|discriminate].
    intros H; injection H as <- <-. right. repeat split.
    simpl. apply to_ulong_add_sub.
  - destruct (scan_syms v sym s0 rest) as [[n1 r1]|] eqn:Es.
    + intros H; injection H as <- <-.
      destruct (scan_syms_named _ _ _ _ _ _ Es) as (s & Hin & Hn & Ho).
      left. exists s. repeat split; auto.
      rewrite Ho. apply to_ulong_add_sub.
    + destruct ((v >=? module_info_addr mp) && (v <=? module_end mp));
        [|discriminate].
      intros H; injection H as <- <-. left.
      exists (List.last rest s0). split; [apply last_In|]. split; auto.
      simpl. apply to_ulong_add_sub.
Qed.

(** X5: the name [LookupModuleSymbol] returns is never made up, and with the
    offset it denotes the address asked for: it is the name of a symbol of
    some module of the table, or the name of a module that has no symbols,
    and that symbol's address (for such a module, the [module_info.addr] the
    lookup reads) plus the offset is the address, modulo [2^32]. *)
Theorem LookupModuleSymbol_denotes (a : Z) (sym : symbol) (g : globals)
    (n : string) (r : symbol) :
  LookupModuleSymbol a sym g = (Some n, r) ->
  exists mp,
    In mp (sym_array_modules g) /\
    ((exists s, In s (sym_array mp) /\ n = name s /\
                to_ulong (value s + offset r) = to_ulong a) \/
     (sym_array mp = [] /\ n = module_name mp /\
      to_ulong (module_info_addr mp + offset r) = to_ulong a)).
Proof.
  unfold LookupModuleSymbol.
  destruct (num_modules g =? 0); [discriminate|].
  generalize (set_offset (set_size sym 0) 0). intros z.
  induction (sym_array_modules g) as [|mp mods IH]; simpl; [discriminate|].
  destruct (lookup_in_module a z mp) as [[n1 r1]|] eqn:E.
  - intros H; injection H as <- <-. exists mp. split; [now left|].
    exact (lookup_in_module_named _ _ _ _ _ E).
  - intros H. destruct (IH H) as (m & Hin & Hm).
    exists m. split; [now right | exact Hm].
Qed.

Lemma LookupModuleSymbol_denotes_witness :
  exists mp,
    In mp (sym_array_modules usb_table) /\
    ((exists s, In s (sym_array mp) /\ "usb_core:init"%string = name s /\
                to_ulong (value s + 0xFFFFF500) = to_ulong 0x500) \/
     (sym_array mp = [] /\ "usb_core:init"%string = module_name mp /\
      to_ulong (module_info_addr mp + 0xFFFFF500) = to_ulong 0x500)).
Proof.
  apply (LookupModuleSymbol_denotes 0x500 stale usb_table "usb_core:init"
           {| size := 0x200; offset := 0xFFFFF500 |}).
  reflexivity.
Defined.

(** X6: the lookup goes through the table front to back and the first
    module that yields a name decides: looking an address up in a table
    followed by further modules gives what the table alone gives when that
    has a name, and otherwise what the further modules alone give.
    [have_modules] plays no part. *)
Theorem LookupModuleSymbol_app (a : Z) (sym : symbol)
    (mods more : list Module_) (b1 b2 b3 : bool) :
  LookupModuleSymbol a sym (mk_globals (mods ++ more) b1) =
    match fst (LookupModuleSymbol a sym (mk_globals mods b2)) with
    | Some _ => LookupModuleSymbol a sym (mk_globals mods b2)
    | None => LookupModuleSymbol a sym (mk_globals more b3)
    end.
Proof.
  unfold LookupModuleSymbol, num_modules. simpl sym_array_modules.
  generalize (set_offset (set_size sym 0) 0). intros z.
  assert (Hnil : forall l : list Module_,
    (if Z.of_nat (List.length l) =? 0 then (@None string, z)
     else lookup_modules a z l) = lookup_modules a z l).
  { intros [|m l]; [reflexivity|].
    destruct (Z.of_nat (List.length (m :: l)) =? 0) eqn:E; [|reflexivity].
    apply Z.eqb_eq in E. simpl in E. lia. }
  rewrite !Hnil. clear Hnil.
  induction mods as [|mp mods IH]; simpl; [reflexivity|].
  destruct (lookup_in_module a z mp) as [[n r]|]; [reflexivity | exact IH].
Qed.

Lemma sorted_syms_nth_le (l : list sym_table) :
  sorted_syms l ->
  forall (j i : nat) (x y : sym_table),
    (i <= j)%nat -> nth_error l i = Some x -> nth_error l j = Some y ->
    value x <= value y.
Proof.
  intros Hs. induction j as [|j IH]; intros i x y Hij Hx Hy.
  - assert (i = 0%nat) as -> by lia. rewrite Hx in Hy. injection Hy as <-. lia.
  - destruct (Nat.eq_dec i (S j)) as [->|Hne].
    + rewrite Hx in Hy. injection Hy as <-. lia.
    + assert (Hlen : (j < List.length l)%nat).
      { assert (S j < List.length l)%nat
          by (apply nth_error_Some; congruence). lia. }
      destruct (nth_error l j) as [z|] eqn:Ez;
        [|apply nth_error_None in Ez; lia].
      pose proof (IH i x z ltac:(lia) Hx eq_refl).
      pose proof (Hs j z y Ez Hy). lia.
Qed.

(** The pair the scan stops at, and what it stores, when the first symbol is
    not above the address. *)
Lemma scan_syms_stops (v : Z) (sym : symbol) (rest : list sym_table) :
  forall (last : sym_table) (n : string) (r : symbol),
    value last <= v ->
    scan_syms v sym last rest = Some (n, r) ->
    exists (i : nat) (s t : sym_table),
      nth_error (last :: rest) i = Some s /\
      nth_error (last :: rest) (S i) = Some t /\
      value s <= v < value t /\ n = name s /\
      offset r = to_ulong (v - value s) /\
      size r = to_ulong (value t - value s).
Proof.
  induction rest as [|cur rest IH]; intros last n r Hl H; [discriminate|].
  simpl in H. destruct (value cur >? v) eqn:E.
  - injection H as <- <-. exists 0%nat, last, cur.
    repeat split; auto; lia.
  - destruct (IH cur n r ltac:(lia) H)
      as (i & s & t & Hi & Hj & Hv & Hn & Ho & Hz).
    exists (S i), s, t. repeat split; auto; lia.
Qed.

(** X7: in a module whose symbols are sorted and begin at or below the
    address, the symbol [LookupModuleSymbol] names is the closest one at or
    below the address: no symbol of the module lies between it and the
    address, and the offset is the plain distance to it.  ([mp] is the first
    module of the table that is not passed by.) *)
Theorem LookupModuleSymbol_closest (g : globals) (pre post : list Module_)
    (mp : Module_) (s0 : sym_table) (rest : list sym_table) (a : Z)
    (sym : symbol) :
  sym_array_modules g = pre ++ mp :: post ->
  Forall (passed_by a) pre ->
  ~ passed_by a mp ->
  sym_array mp = s0 :: rest ->
  sorted_syms (sym_array mp) ->
  0 <= value s0 <= a -> a < ULONG_MOD ->
  exists (s : sym_table) (r : symbol),
    In s (sym_array mp) /\
    LookupModuleSymbol a sym g = (Some (name s), r) /\
    value s <= a /\
    (forall u, In u (sym_array mp) -> value u <= a -> value u <= value s) /\
    offset r = a - value s.
Proof.
  intros Hg Hpre Hnot Hsyms Hsorted Hs0 Ha.
  assert (Hsome : lookup_in_module a {| size := 0; offset := 0 |} mp <> None).
  { intros E. apply Hnot.
    now apply (lookup_in_module_None a {| size := 0; offset := 0 |} mp). }
  rewrite Hsyms in Hsorted.
  pose proof (sorted_syms_head _ _ Hsorted) as Hhead.
  unfold lookup_in_module in Hsome.
  destruct (scan_syms a {| size := 0; offset := 0 |} s0 rest)
    as [[n r]|] eqn:Es.
  - clear Hsome.
    destruct (scan_syms_stops a _ rest s0 n r ltac:(lia) Es)
      as (i & s & t & Hi & Hj & Hv & Hn & Ho & _).
    assert (Hins : In s (s0 :: rest)) by (eapply nth_error_In; eassumption).
    assert (H0s : 0 <= value s).
    { destruct Hins as [<-|Hins]; [lia|].
      rewrite Forall_forall in Hhead. specialize (Hhead s Hins). lia. }
    exists s, r. rewrite Hsyms. split; [exact Hins|]. split; [|split; [|split]].
    + apply (LookupModuleSymbol_first a sym g pre post mp); auto.
      unfold lookup_in_module. rewrite Hsyms, Es. now rewrite Hn.
    + lia.
    + intros u Hu Hua. apply In_nth_error in Hu. destruct Hu as (j & Hu).
      destruct (Nat.le_gt_cases j i) as [Hji|Hji].
      * exact (sorted_syms_nth_le _ Hsorted i j u s Hji Hu Hi).
      * pose proof (sorted_syms_nth_le _ Hsorted j (S i) t u ltac:(lia) Hj Hu).
        lia.
    + rewrite Ho. apply to_ulong_small. lia.
  - rewrite Hsyms, Es in Hsome.
    destruct ((a >=? module_info_addr mp) && (a <=? module_end mp)) eqn:Er;
      [clear Hsome | now contradiction Hsome].
    apply scan_syms_None in Es.
    destruct (exists_last (l := s0 :: rest) ltac:(discriminate))
      as (init & sn & Hl).
    pose proof (last_of_snoc s0 rest init sn Hl) as Hlast.
    assert (Hin : In sn (s0 :: rest)) by (rewrite <- Hlast; apply last_In).
    assert (Hsn : value s0 <= value sn <= a).
    { destruct Hin as [<-|Hin]; [lia|]. rewrite Forall_forall in Hhead, Es.
      specialize (Hhead sn Hin). specialize (Es sn Hin). lia. }
    exists sn. eexists. rewrite Hsyms.
    split; [exact Hin|]. split; [|split; [|split]].
    + apply (LookupModuleSymbol_first a sym g pre post mp); auto.
      unfold lookup_in_module. rewrite Hsyms.
      apply scan_syms_None with (sym := {| size := 0; offset := 0 |})
        (last := s0) in Es.
      rewrite Es, Er, Hlast. reflexivity.
    + lia.
    + intros u Hu _. rewrite Hl in Hsorted, Hu.
      pose proof (sorted_syms_last _ _ Hsorted) as Hall.
      rewrite Forall_forall in Hall. exact (Hall u Hu).
    + simpl. apply to_ulong_small. lia.
Qed.

Lemma LookupModuleSymbol_closest_witness :
  exists (s : sym_table) (r : symbol),
    In s (sym_array usb_entry) /\
    LookupModuleSymbol 0x1100 stale plain_table = (Some (name s), r) /\
    value s <= 0x1100 /\
    (forall u, In u (sym_array usb_entry) -> value u <= 0x1100 ->
               value u <= value s) /\
    offset r = 0x1100 - value s.
Proof.
  apply (LookupModuleSymbol_closest plain_table [entry_of bare]
           [entry_of far] usb_entry usb_init [usb_probe] 0x1100 stale).
  - reflexivity.
  - constructor; [|constructor]. split; [constructor|].
    eval_end. simpl. lia.
  - intros [H _]. simpl in H. inversion H; subst. simpl in *. lia.
  - reflexivity.
  - intros [|[|i]] x y Hx Hy; simpl in Hx, Hy; try discriminate.
    injection Hx as <-. injection Hy as <-. simpl. lia.
  - simpl. lia.
  - rewrite ULONG_MOD_eq. lia.
Defined.

(** X8: when the first symbol of a module is at or below the address and a
    later entry lies above it, the bracket [LookupModuleSymbol] returns holds
    the address: [0 <= offset < size].  ([mp] is the first module of the
    table that is not passed by; the addresses are unsigned longs; the
    symbols need not be sorted.) *)
Theorem LookupModuleSymbol_offset_below_size (g : globals)
    (pre post : list Module_) (mp : Module_) (s0 : sym_table)
    (rest : list sym_table) (a : Z) (sym : symbol) :
  sym_array_modules g = pre ++ mp :: post ->
  Forall (passed_by a) pre ->
  sym_array mp = s0 :: rest ->
  Forall (fun s => 0 <= value s < ULONG_MOD) (s0 :: rest) ->
  value s0 <= a ->
  Exists (fun s => a < value s) rest ->
  exists (n : string) (r : symbol),
    LookupModuleSymbol a sym g = (Some n, r) /\
    0 <= offset r < size r.
Proof.
  intros Hg Hpre Hsyms Htyped Hs0 Habove.
  destruct (scan_syms a {| size := 0; offset := 0 |} s0 rest)
    as [[n r]|] eqn:Es.
  - exists n, r. split.
    + apply (LookupModuleSymbol_first a sym g pre post mp); auto.
      unfold lookup_in_module. now rewrite Hsyms, Es.
    + destruct (scan_syms_stops a _ rest s0 n r Hs0 Es)
        as (i & s & t & Hi & Hj & Hv & _ & Ho & Hz).
      rewrite Forall_forall in Htyped.
      pose proof (Htyped s (nth_error_In _ _ Hi)).
      pose proof (Htyped t (nth_error_In _ _ Hj)).
      rewrite Ho, Hz, !to_ulong_small by lia. lia.
  - apply scan_syms_None in Es. apply Exists_exists in Habove.
    destruct Habove as (s & Hin & Hs). rewrite Forall_forall in Es.
    specialize (Es s Hin). lia.
Qed.

Lemma LookupModuleSymbol_offset_below_size_witness :
  exists (n : string) (r : symbol),
    LookupModuleSymbol 0x1100 stale plain_table = (Some n, r) /\
    0 <= offset r < size r.
Proof.
  apply (LookupModuleSymbol_offset_below_size plain_table [entry_of bare]
           [entry_of far] usb_entry usb_init [usb_probe] 0x1100 stale).
  - reflexivity.
  - constructor; [|constructor]. split; [constructor|].
    eval_end. simpl. lia.
  - reflexivity.
  - rewrite ULONG_MOD_eq. repeat constructor; simpl; lia.
  - simpl. lia.
  - constructor. simpl. lia.
Defined.

(** X9: [LookupModuleSymbol] returns no name exactly when every module of
    the table is passed by: none of its entries but the first lies above the
    address, and the address is outside
    [module_info.addr, module_info.addr + module.size * 4096], an interval
    that holds both its ends and whose upper end is computed modulo
    [2^32]. *)
Theorem LookupModuleSymbol_absent_iff (a : Z) (sym : symbol) (g : globals) :
  fst (LookupModuleSymbol a sym g) = None <->
  forall mp, In mp (sym_array_modules g) ->
    (forall s, In s (List.tl (sym_array mp)) -> value s <= a) /\
    ~ (module_info_addr mp <= a <=
       to_ulong (module_info_addr mp + to_ulong (msize (module mp) * 4096))).
Proof.
  rewrite LookupModuleSymbol_miss, Forall_forall.
  split; intros H mp Hin; specialize (H mp Hin); destruct H as [H1 H2].
  - split; [now apply Forall_forall | exact H2].
  - split; [now apply Forall_forall | exact H2].
Qed.

(** ** The queries of the build *)

Lemma grow_query_ext {A : Type} (q q' : Z -> qm_result A) (fuel : nat) :
  forall (seed : Z) (h : heap),
    0 < seed ->
    (forall j, 1 <= j -> seed * 2 ^ j <= INT_MAX ->
               q (seed * 2 ^ j) = q' (seed * 2 ^ j)) ->
    grow_query fuel q seed h = grow_query fuel q' seed h.
Proof.
  induction fuel as [|fuel IH]; intros seed h Hs Hq; [reflexivity|].
  simpl. destruct (seed + seed >? INT_MAX) eqn:E; [reflexivity|].
  destruct (alloc h) as [ok h1]. destruct (negb ok); [reflexivity|].
  assert (E1 : q (seed + seed) = q' (seed + seed)).
  { replace (seed + seed) with (seed * 2 ^ 1) by (rewrite Z.pow_1_r; ring).
    apply Hq; [lia|]. rewrite Z.pow_1_r. lia. }
  rewrite E1. destruct (q' (seed + seed)); try reflexivity.
  apply IH; [lia|]. intros j Hj Hmax.
  replace ((seed + seed) * 2 ^ j) with (seed * 2 ^ (j + 1)) in *
    by (rewrite Z.pow_add_r by lia; rewrite Z.pow_1_r; ring).
  apply Hq; [lia | exact Hmax].
Qed.

(** X10: the build asks for the module list with buffers of 64, 128, ...
    bytes only, and for the symbols of a module with 256, 512, ... bytes
    only, never with more than [INT_MAX] bytes: two kernels that give the
    same answers at these sizes (and describe the modules alike, on the same
    memory) make [InitMsyms] behave the same. *)
Theorem InitMsyms_asks_doubled_sizes
    (qm qm' : Z -> qm_result (list string))
    (qi : string -> option module_info)
    (qs qs' : string -> Z -> qm_result (list (Z * string)))
    (st : nat -> Z) (g : globals) (h : heap) :
  (forall j, 1 <= j -> 32 * 2 ^ j <= INT_MAX ->
             qm (32 * 2 ^ j) = qm' (32 * 2 ^ j)) ->
  (forall n j, 1 <= j -> 128 * 2 ^ j <= INT_MAX ->
               qs n (128 * 2 ^ j) = qs' n (128 * 2 ^ j)) ->
  InitMsyms (mk_kernel qm qi qs st) g h =
  InitMsyms (mk_kernel qm' qi qs' st) g h.
Proof.
  intros Hm Hs.
  assert (HA : forall n g0 h0,
    AddModule (mk_kernel qm qi qs st) n g0 h0 =
    AddModule (mk_kernel qm' qi qs' st) n g0 h0).
  { intros n g0 h0. unfold AddModule. cbn [qm_info qm_symbols stale_addr].
    destruct (have_modules g0); [reflexivity|].
    destruct (qi n); [|reflexivity].
    destruct (alloc h0) as [ok h1]. destruct (negb ok); [reflexivity|].
    rewrite (grow_query_ext (qs n) (qs' n) LOOP_FUEL 128 h1 ltac:(lia)
               (Hs n)).
    reflexivity. }
  assert (HM : forall names g0 d0 h0,
    add_modules (mk_kernel qm qi qs st) names g0 d0 h0 =
    add_modules (mk_kernel qm' qi qs' st) names g0 d0 h0).
  { induction names as [|n names IH]; intros g0 d0 h0; simpl; [reflexivity|].
    rewrite HA.
    destruct (AddModule (mk_kernel qm' qi qs' st) n g0 h0)
      as [[[[[|] g1] d1] h1]| |]; auto. }
  unfold InitMsyms. cbn [qm_modules].
  rewrite (grow_query_ext qm qm' LOOP_FUEL 32 h ltac:(lia) Hm).
  destruct (grow_query LOOP_FUEL qm' 32 h) as [[[names|] h1]| |]; auto.
  destruct (Z.of_nat (List.length names) <=? 0); auto.
  destruct (alloc h1) as [ok2 h2]. destruct (negb ok2); auto.
  destruct (alloc h2) as [ok3 h3]. destruct (negb ok3); auto.
  now rewrite HM.
Qed.

Lemma InitMsyms_asks_doubled_sizes_witness :
  InitMsyms
    (mk_kernel
       (fun sz => if sz =? 100 then QmError else qm_modules usb_kernel sz)
       (qm_info usb_kernel)
       (fun n sz => if sz =? 300 then QmOk [] else qm_symbols usb_kernel n sz)
       (stale_addr usb_kernel))
    no_modules [] =
  InitMsyms
    (mk_kernel (qm_modules usb_kernel) (qm_info usb_kernel)
       (qm_symbols usb_kernel) (stale_addr usb_kernel))
    no_modules [].
Proof.
  apply InitMsyms_asks_doubled_sizes.
  - intros j Hj _.
    assert (Hne : (32 * 2 ^ j =? 100) = false).
    { apply Z.eqb_neq. intros E.
      assert (H4 : (32 * 2 ^ j) mod 32 = 0)
        by (rewrite Z.mul_comm; apply Z.mod_mul; lia).
      rewrite E in H4. discriminate H4. }
    now rewrite Hne.
  - intros n j Hj _.
    assert (Hne : (128 * 2 ^ j =? 300) = false).
    { apply Z.eqb_neq. intros E.
      assert (H4 : (128 * 2 ^ j) mod 128 = 0)
        by (rewrite Z.mul_comm; apply Z.mod_mul; lia).
      rewrite E in H4. discriminate H4. }
    now rewrite Hne.
Defined.

Lemma grow_query_alloc_fails {A : Type} (q : Z -> qm_result A) (n : nat) :
  forall (fuel : nat) (seed : Z) (h : heap),
    (n < fuel)%nat -> 0 < seed ->
    seed * 2 ^ (Z.of_nat n + 1) <= INT_MAX ->
    (forall j, 1 <= j <= Z.of_nat n -> q (seed * 2 ^ j) = QmNoSpace) ->
    Forall (eq true) (firstn n h) ->
    nth_error h n = Some false ->
    grow_query fuel q seed h = Done (None, skipn (S n) h).
Proof.
  induction n as [|n IH]; intros fuel seed h Hf Hs Hmax Hq Hh Hn.
  - destruct fuel as [|fuel]; [lia|]. cbn [grow_query].
    change (Z.of_nat 0 + 1) with 1 in Hmax. rewrite Z.pow_1_r in Hmax.
    destruct (seed + seed >? INT_MAX) eqn:E; [lia|].
    destruct h as [|ok h]; [discriminate|]. simpl in Hn.
    injection Hn as ->. reflexivity.
  - destruct fuel as [|fuel]; [lia|]. cbn [grow_query].
    assert (Hpow : 2 ^ (Z.of_nat (S n) + 1) = 2 * 2 ^ (Z.of_nat n + 1)).
    { replace (Z.of_nat (S n) + 1) with (Z.succ (Z.of_nat n + 1)) by lia.
      apply Z.pow_succ_r. lia. }
    assert (Hpos : 0 < 2 ^ (Z.of_nat n + 1)) by (apply Z.pow_pos_nonneg; lia).
    destruct (seed + seed >? INT_MAX) eqn:E; [nia|].
    destruct h as [|ok h]; [discriminate|].
    simpl in Hh, Hn. inversion Hh as [|? ? Hok Hh']; subst.
    cbn [alloc negb].
    assert (Hq1 : q (seed + seed) = QmNoSpace).
    { replace (seed + seed) with (seed * 2 ^ 1) by (rewrite Z.pow_1_r; ring).
      apply Hq. lia. }
    rewrite Hq1.
    apply (IH fuel (seed + seed) h); try lia; try assumption.
    intros j Hj.
    replace ((seed + seed) * 2 ^ j) with (seed * 2 ^ (j + 1))
      by (rewrite Z.pow_add_r by lia; rewrite Z.pow_1_r; ring).
    apply Hq. lia.
Qed.

(** X11: when the buffer for the module list cannot be grown in round
    [n + 1], after [n] rounds that ended on [ENOSPC], [InitMsyms] returns 0
    without a further query and leaves the table empty. *)
Theorem InitMsyms_realloc_fails (k : kernel) (g : globals) (h : heap)
    (n : nat) :
  32 * 2 ^ (Z.of_nat n + 1) <= INT_MAX ->
  (forall j, 1 <= j <= Z.of_nat n -> qm_modules k (32 * 2 ^ j) = QmNoSpace) ->
  Forall (eq true) (firstn n h) ->
  nth_error h n = Some false ->
  InitMsyms k g h = Done (false, no_modules, skipn (S n) h).
Proof.
  intros Hmax Hq Hh Hn.
  apply InitMsyms_list_query_fails.
  apply grow_query_alloc_fails; auto; try lia.
  exact (rounds_below_fuel 32 n ltac:(lia) Hmax).
Qed.

Lemma InitMsyms_realloc_fails_witness :
  InitMsyms usb_kernel usb_table [true; false; true] =
    Done (false, no_modules, [true]).
Proof.
  apply (InitMsyms_realloc_fails usb_kernel usb_table [true; false; true] 1).
  - vm_compute. discriminate.
  - intros j Hj. assert (j = 1) as -> by (simpl in Hj; lia). reflexivity.
  - repeat constructor.
  - reflexivity.
Defined.

Lemma Forall_firstn_add {A : Type} (P : A -> Prop) (a b : nat) :
  forall (l : list A),
    Forall P (firstn (a + b) l) ->
    Forall P (firstn a l) /\ Forall P (firstn b (skipn a l)).
Proof.
  induction a as [|a IH]; intros l H; simpl in *.
  - split; [constructor | exact H].
  - destruct l as [|x l]; simpl in *.
    + split; [constructor|]. rewrite firstn_nil. constructor.
    + inversion H as [|? ? Hx Hl]; subst.
      destruct (IH l Hl) as [Ha Hb]. split; [now constructor | exact Hb].
Qed.

(** X12: a module whose symbols cannot be queried stays in the table.  When
    the kernel lists [n] first and describes it, the query for its symbols
    ends on an error other than [ENOSPC], and no allocation fails on the
    way, [InitMsyms] returns 0 and leaves a table of one entry, [n] without
    symbols, whose [module_info.addr] is what the memory of the table held.
    Every address from there to [module_info.addr + module.size * 4096] (as
    the source computes it) is then resolved to the bare name [n]; the base
    address that the kernel reported plays no part. *)
Theorem symbol_query_error_keeps_module (k : kernel) (g : globals)
    (h : heap) (m p : nat) (n : string) (rest : list string)
    (info : module_info) :
  32 * 2 ^ (Z.of_nat m + 1) <= INT_MAX ->
  (forall j, 1 <= j <= Z.of_nat m -> qm_modules k (32 * 2 ^ j) = QmNoSpace) ->
  qm_modules k (32 * 2 ^ (Z.of_nat m + 1)) = QmOk (n :: rest) ->
  qm_info k n = Some info ->
  128 * 2 ^ (Z.of_nat p + 1) <= INT_MAX ->
  (forall j, 1 <= j <= Z.of_nat p ->
             qm_symbols k n (128 * 2 ^ j) = QmNoSpace) ->
  qm_symbols k n (128 * 2 ^ (Z.of_nat p + 1)) = QmError ->
  Forall (eq true) (firstn (m + p + 5) h) ->
  let left_over :=
    {| sym_array_modules :=
         [{| sym_array := []; module_name := n; module := info;
             module_info_addr := stale_addr k 0 |}];
       have_modules := false |} in
  InitMsyms k g h = Done (false, left_over, skipn (m + p + 5) h) /\
  forall (a : Z) (sym : symbol),
    stale_addr k 0 <= a <=
      to_ulong (stale_addr k 0 + to_ulong (msize info * 4096)) ->
    LookupModuleSymbol a sym left_over =
      (Some n, {| size := to_ulong (msize info * 4096);
                  offset := to_ulong (a - stale_addr k 0) |}).
Proof.
  intros Hm Hqm Hnames Hinfo Hp Hqs Herr Hh left_over. split.
  - replace (m + p + 5)%nat with (S m + (3 + S p))%nat in Hh by lia.
    destruct (Forall_firstn_add _ _ _ _ Hh) as [Hh1 Hh2].
    assert (H32 : 0 < 32) by lia. assert (H128 : 0 < 128) by lia.
    pose proof (grow_query_rounds (qm_modules k) m LOOP_FUEL 32 h
                  (rounds_below_fuel 32 m H32 Hm) H32 Hm Hqm Hh1) as Em.
    rewrite Hnames in Em.
    unfold InitMsyms. rewrite Em.
    cbn [List.length].
    destruct (Z.of_nat (S (List.length rest)) <=? 0) eqn:E;
      [apply Z.leb_le in E; lia|].
    set (h1 := skipn (S m) h) in *.
    destruct (alloc_ok _ h1 Hh2) as [-> Hh3]. cbn [negb].
    destruct (alloc_ok _ _ Hh3) as [-> Hh4]. cbn [negb].
    cbn [add_modules]. unfold AddModule. cbn [FreeModules have_modules].
    rewrite Hinfo.
    destruct (alloc_ok _ _ Hh4) as [-> Hh5]. cbn [negb].
    pose proof (grow_query_rounds (qm_symbols k n) p LOOP_FUEL 128 _
                  (rounds_below_fuel 128 p H128 Hp) H128 Hp Hqs Hh5) as Ep.
    rewrite Herr in Ep. rewrite Ep. unfold left_over, h1.
    cbn [FreeModules sym_array_modules app List.length join_damage].
    rewrite !skipn_skipn.
    replace (S p + 1 + 1 + 1 + S m)%nat with (m + p + 5)%nat by lia.
    reflexivity.
  - intros a sym Ha. unfold LookupModuleSymbol, left_over, num_modules.
    cbn [sym_array_modules List.length lookup_modules].
    unfold lookup_in_module, module_end.
    cbn [sym_array module module_name module_info_addr].
    replace ((a >=? stale_addr k 0) &&
             (a <=? to_ulong (stale_addr k 0 + to_ulong (msize info * 4096))))
      with true by (symmetry; apply andb_true_iff; lia).
    reflexivity.
Qed.

Lemma symbol_query_error_keeps_module_witness :
  InitMsyms deaf_kernel usb_table [] =
    Done (false,
          {| sym_array_modules := [entry_of usb_core];
             have_modules := false |}, []) /\
  LookupModuleSymbol 0x800 stale
    {| sym_array_modules := [entry_of usb_core]; have_modules := false |} =
    (Some "usb_core"%string, {| size := 0x1000; offset := 0x800 |}).
Proof.
  destruct (symbol_query_error_keeps_module deaf_kernel usb_table [] 1 0
              "usb_core" [] {| addr := 0x1000; msize := 1 |}) as [H1 H2].
  - vm_compute. discriminate.
  - intros j Hj. assert (j = 1) as -> by (simpl in Hj; lia). reflexivity.
  - reflexivity.
  - reflexivity.
  - vm_compute. discriminate.
  - intros j Hj. simpl in Hj. lia.
  - reflexivity.
  - constructor.
  - split; [exact H1|]. apply (H2 0x800 stale). vm_compute.
    split; discriminate.
Defined.

(** ** What the build leaves unwritten and unchecked *)

Lemma sort_module_info_addr (mp : Module_) :
  module_info_addr (sort_module mp) = module_info_addr mp.
Proof. unfold sort_module. destruct (num_syms mp <? 2); reflexivity. Qed.

(** X17: the build never writes [module_info.addr].  In every table that
    [InitMsyms] leaves, whether it returns 1 or 0, the field of the entry at
    place [i] holds what the memory of the table held there when it was
    allocated; the base address that [QM_INFO] reported is in [module], and
    the lookup does not read it. *)
Theorem InitMsyms_module_info_unassigned (k : kernel) (g : globals)
    (h : heap) (b : bool) (g' : globals) (h' : heap) :
  InitMsyms k g h = Done (b, g', h') ->
  forall (i : nat) (mp : Module_),
    nth_error (sym_array_modules g') i = Some mp ->
    module_info_addr mp = stale_addr k i.
Proof.
  assert (Hnil : forall i mp,
    nth_error (sym_array_modules (FreeModules g)) i = Some mp ->
    module_info_addr mp = stale_addr k i).
  { intros [|i] mp H; discriminate. }
  unfold InitMsyms.
  destruct (grow_query LOOP_FUEL (qm_modules k) 32 h)
    as [[[names|] h1]| |]; try discriminate.
  2:{ intros H; injection H as _ <- _. exact Hnil. }
  destruct (Z.of_nat (List.length names) <=? 0).
  { intros H; injection H as _ <- _. exact Hnil. }
  destruct (alloc h1) as [[|] h2]; simpl negb; cbv iota.
  2:{ intros H; injection H as _ <- _. exact Hnil. }
  destruct (alloc h2) as [[|] h3]; simpl negb; cbv iota.
  2:{ intros H; injection H as _ <- _. exact Hnil. }
  destruct (add_modules k names (FreeModules g) intact h3)
    as [[[[[|] g1] [|[|]]] h4]| |] eqn:Em; try discriminate;
    pose proof (add_modules_stale k names (FreeModules g) _ _ _ _ _ _
                  eq_refl Hnil Em) as Hall;
    intros H; injection H as _ <- _.
  - intros i mp Hi. cbn [sym_array_modules] in Hi.
    rewrite nth_error_map in Hi.
    destruct (nth_error (sym_array_modules g1) i) as [m|] eqn:E;
      [|discriminate].
    injection Hi as <-. rewrite sort_module_info_addr. now apply Hall.
  - exact Hall.
Qed.

Lemma InitMsyms_module_info_unassigned_witness :
  module_info_addr usb_entry = stale_addr usb_kernel 0 /\
  addr (module usb_entry) = 0x1000.
Proof.
  split; [|reflexivity].
  apply (InitMsyms_module_info_unassigned usb_kernel no_modules [] true
           usb_table [] eq_refl 0%nat usb_entry eq_refl).
Defined.

(** X18: what [AddSymbol] returns does not reach the caller of [AddModule].
    Once the kernel has described the module, its name is stored and the
    query for its symbols is answered, [AddModule] returns 1 whatever the
    allocator does while the symbols are added. *)
Theorem AddModule_ignores_AddSymbol (k : kernel) (n : string) (g : globals)
    (h h1 h2 : heap) (info : module_info) (symbuf : list (Z * string)) :
  have_modules g = false ->
  qm_info k n = Some info ->
  alloc h = (true, h1) ->
  grow_query LOOP_FUEL (qm_symbols k n) 128 h1 = Done (Some symbuf, h2) ->
  exists g' d h', AddModule k n g h = Done (true, g', d, h').
Proof.
  intros Hg Hi Ha Hq. unfold AddModule. rewrite Hg, Hi, Ha. simpl negb.
  cbv iota. rewrite Hq.
  destruct (add_symbols_Done n symbuf (Held []) h2) as (blk & h3 & ->).
  destruct blk; now eexists _, _, _.
Qed.

Lemma AddModule_ignores_AddSymbol_witness :
  exists g' d h',
    AddModule usb_kernel "usb_core" no_modules
      [true; true; true; false; false; false; false] =
    Done (true, g', d, h').
Proof.
  apply (AddModule_ignores_AddSymbol usb_kernel "usb_core" no_modules
           [true; true; true; false; false; false; false]
           [true; true; false; false; false; false]
           [false; false; false; false]
           {| addr := 0x1000; msize := 1 |}
           [(0x1200, "probe"%string); (0x1000, "init"%string)]);
    reflexivity.
Defined.
